(** * Co-authorship graph of OEIS comment authors: a shallow embedding

    This development embeds [mihalcea.py] (record loading, author extraction
    by regular expression, graph accumulation, node-link persistence) and
    proves properties of the embedded functions.

    Conventions.
    - A Python [str] is a list of Unicode code points.
    - A Python [set] of strings is a [gset str]; a [dict] used as a map is a
      [gmap]; the dictionaries produced by [json.load] keep their entries,
      which have distinct keys, as an association list.
    - A raised exception is a value of [exn]; functions that can raise return
      in [res], functions that also print or write files return in [io].
    - [networkx], [itertools], [re] and [json] are libraries: the calls the
      program makes are embedded after their documented behaviour. *)

From Stdlib Require Import ZArith NArith String Ascii List Lia.
From stdpp Require Import base option list sets gmap fin_maps.

Local Open Scope N_scope.
#[local] Set Warnings "-clear-no-such-hyp,-register-all".

(** ** Strings *)

Definition char := N.
Definition str := list char.

(** The code points of an ASCII literal. *)
Fixpoint py (s : string) : str :=
  match s with
  | EmptyString => []
  | String a s' => N_of_ascii a :: py s'
  end.

(** [s.startswith(prefix)] *)
Fixpoint startswith (s prefix : str) {struct prefix} : bool :=
  match prefix, s with
  | [], _ => true
  | p :: prefix', c :: s' => (c =? p) && startswith s' prefix'
  | _ :: _, [] => false
  end.

(** [s.endswith(suffix)] *)
Definition endswith (s suffix : str) : bool :=
  startswith (rev s) (rev suffix).

(** [sep.join(parts)] *)
Fixpoint join (sep : str) (parts : list str) : str :=
  match parts with
  | [] => []
  | [p] => p
  | p :: parts' => p ++ sep ++ join sep parts'
  end.

(** ** Exceptions and results *)

Inductive exn :=
  | AttributeError
  | IndexError
  | KeyError
  | TypeError
  | ValueError
  | UnboundLocalError
  | OSError
  | NetworkXError
  | SystemExit (status : option Z)
  | OutsideModel.

Inductive res (A : Type) :=
  | Ok (a : A)
  | Raise (e : exn).
Arguments Ok {A} a.
Arguments Raise {A} e.

#[export] Instance res_ret : MRet res := @Ok.
#[export] Instance res_bind : MBind res := fun A B f m =>
  match m with
  | Ok a => f a
  | Raise e => Raise e
  end.

#[export] Instance res_fmap : FMap res := fun A B f m =>
  match m with
  | Ok a => Ok (f a)
  | Raise e => Raise e
  end.

(** A comprehension or a loop whose body can raise: the first exception
    ends it. *)
Fixpoint res_map {A B} (f : A -> res B) (l : list A) : res (list B) :=
  match l with
  | [] => Ok []
  | x :: l' => y ← f x; ys ← res_map f l'; Ok (y :: ys)
  end.

(** [s.split(sep)]: cuts at the non-overlapping occurrences of [sep], found
    from the left; [skip] counts the characters of an occurrence still to be
    passed over, [cur] is the current segment, reversed.  An empty separator
    raises [ValueError]. *)
Fixpoint split_from (sep cur s : str) (skip : nat) : list str :=
  match s with
  | [] => [rev cur]
  | c :: s' =>
      match skip with
      | S k => split_from sep cur s' k
      | O =>
          if startswith s sep
          then rev cur :: split_from sep [] s' (length sep - 1)
          else split_from sep (c :: cur) s' O
      end
  end.

Definition split (s sep : str) : res (list str) :=
  match sep with
  | [] => Raise ValueError
  | _ :: _ => Ok (split_from sep [] s O)
  end.

(** ** The regular expression of [parse_authors_from_comments] *)

(** [[A-Z]] *)
Definition is_upper (c : char) : bool := (65 <=? c) && (c <=? 90).

(** [[0-9]] *)
Definition is_digit (c : char) : bool := (48 <=? c) && (c <=? 57).

(** The punctuation excluded by the character class: plus sign, round,
    square and curly brackets, backslash, slash, underscore, colon,
    semicolon and the double quote (code point 34). *)
Definition excluded_punct : str := py "+()[]{}\/_:;" ++ [34].

(** The negated class of [common_pattern]: any character that is neither a
    digit nor one of the excluded punctuation characters. *)
Definition name_char (c : char) : bool :=
  negb (is_digit c || existsb (N.eqb c) excluded_punct).

(** [[^...]{2,}?] followed by the closing lookahead [end_ok]: the lazy
    quantifier takes its [need] mandatory characters, then stops at the
    first position where the lookahead holds, and otherwise takes one more
    character of the class.  Returns the characters taken. *)
Fixpoint lazy_repeat (end_ok : str -> bool) (need : nat) (rest : str) : option str :=
  match need, rest with
  | O, [] => if end_ok rest then Some [] else None
  | O, c :: rest' =>
      if end_ok rest then Some []
      else if name_char c then cons c <$> lazy_repeat end_ok O rest' else None
  | S k, c :: rest' =>
      if name_char c then cons c <$> lazy_repeat end_ok k rest' else None
  | S k, [] => None
  end.

(** The body of [(?!=[A-Z])]: an equals sign and then an uppercase letter. *)
Definition eq_upper_ahead (rest : str) : bool :=
  match rest with
  | c :: u :: _ => (c =? 61) && is_upper u
  | _ => false
  end.

(** [common_pattern], closed by the lookahead [end_ok]. *)
Definition common_pattern (end_ok : str -> bool) (rest : str) : option str :=
  match rest with
  | c :: rest' =>
      if is_upper c && negb (eq_upper_ahead rest')
      then cons c <$> lazy_repeat end_ok 2 rest'
      else None
  | [] => None
  end.

(** [(?<=ctx)] on the text before the position, given reversed, and
    [(?=ctx)] on the text from the position on. *)
Definition lookbehind (ctx before_rev : str) : bool := startswith before_rev (rev ctx).
Definition lookahead (ctx rest : str) : bool := startswith rest ctx.

(** [pattern_list]: the four pairs of opening lookbehind and closing
    lookahead. *)
Definition pattern_list : list ((str -> bool) * (str -> bool)) :=
  [ (lookbehind (py "_"), lookahead (py "_"));
    (lookbehind (py "["), lookahead (py "]"));
    (lookbehind (py "- "), fun r => lookahead (py " (") r || lookahead (py ", ") r);
    (lookbehind (py "("), lookahead (py ",")) ].

(** The alternation: the alternatives are tried in order at one position. *)
Fixpoint first_alternative (alts : list ((str -> bool) * (str -> bool)))
    (before_rev rest : str) : option str :=
  match alts with
  | [] => None
  | (start, end_ok) :: alts' =>
      match (if start before_rev then common_pattern end_ok rest else None) with
      | Some m => Some m
      | None => first_alternative alts' before_rev rest
      end
  end.

(** [pattern], matched at the position between [before_rev] and [rest]. *)
Definition pattern (before_rev rest : str) : option str :=
  first_alternative pattern_list before_rev rest.

(** [re.findall(pattern, s)]: the leftmost match, then the search resumes
    where it ended; [skip] counts the characters of the last match still to
    be passed over. *)
Fixpoint findall_from (before_rev rest : str) (skip : nat) : list str :=
  match rest with
  | [] => []
  | c :: rest' =>
      match skip with
      | S k => findall_from (c :: before_rev) rest' k
      | O =>
          match pattern before_rev rest with
          | Some m => m :: findall_from (c :: before_rev) rest' (length m - 1)
          | None => findall_from (c :: before_rev) rest' O
          end
      end
  end.

Definition findall (s : str) : list str := findall_from [] s O.

(** ** JSON documents as loaded by [json.load] *)

(** A Python float, as far as the program looks at it. *)
Inductive pyfloat :=
  | FZero (negative : bool)
  | FFinite (negative : bool) (mantissa : positive) (exponent : Z)
  | FInfinity (negative : bool)
  | FNaN.

Inductive json :=
  | JNull
  | JBool (b : bool)
  | JInt (z : Z)
  | JFloat (f : pyfloat)
  | JStr (s : str)
  | JList (l : list json)
  | JDict (d : list (str * json)).

(** The value bound to [key] in the entries of a dictionary. *)
Fixpoint assoc (key : str) (d : list (str * json)) : option json :=
  match d with
  | [] => None
  | (k, v) :: d' => if decide (k = key) then Some v else assoc key d'
  end.

(** [obj.get(key)]: only a dictionary has the method; an absent key gives
    [None]. *)
Definition get (obj : json) (key : str) : res json :=
  match obj with
  | JDict d => Ok (default JNull (assoc key d))
  | _ => Raise AttributeError
  end.

(** [obj[0]] *)
Definition getitem0 (obj : json) : res json :=
  match obj with
  | JList (x :: _) => Ok x
  | JList [] => Raise IndexError
  | JStr (c :: _) => Ok (JStr [c])
  | JStr [] => Raise IndexError
  | JDict _ => Raise KeyError
  | JNull | JBool _ | JInt _ | JFloat _ => Raise TypeError
  end.

(** The truth value of an object, as tested by [if obj:]. *)
Definition truthy (obj : json) : bool :=
  match obj with
  | JNull => false
  | JBool b => b
  | JInt z => negb (z =? 0)%Z
  | JFloat (FZero _) => false
  | JFloat _ => true
  | JStr s => negb (bool_decide (s = []))
  | JList l => match l with [] => false | _ :: _ => true end
  | JDict d => match d with [] => false | _ :: _ => true end
  end.

(** The items visited by [for x in obj]. *)
Definition iterate (obj : json) : res (list json) :=
  match obj with
  | JList l => Ok l
  | JStr s => Ok (map (fun c => JStr [c]) s)
  | JDict d => Ok (map (fun kv => JStr (fst kv)) d)
  | JNull | JBool _ | JInt _ | JFloat _ => Raise TypeError
  end.

(** ** [parse_authors_from_comments] *)

(** [[n for names in re.findall(pattern, comment) for n in names.split(', ')]];
    [re.findall] accepts a string only. *)
Definition comment_names (comment : json) : res (list str) :=
  match comment with
  | JStr s =>
      parts ← res_map (fun names => split names (py ", ")) (findall s);
      Ok (concat parts)
  | _ => Raise TypeError
  end.

(** The loop over [comment_list], updating the set [authors]. *)
Fixpoint parse_comments (authors : gset str) (comment_list : list json) : res (gset str) :=
  match comment_list with
  | [] => Ok authors
  | comment :: comment_list' =>
      names ← comment_names comment;
      parse_comments (authors ∪ list_to_set names) comment_list'
  end.

(** The function returns the set of authors, or [None] when the comment
    list is absent or empty. *)
Definition parse_authors_from_comments (raw_data : json) : res (option (gset str)) :=
  results ← get raw_data (py "results");
  first ← getitem0 results;
  comment_list ← get first (py "comment");
  if truthy comment_list then
    comments ← iterate comment_list;
    authors ← parse_comments ∅ comments;
    Ok (Some authors)
  else Ok None.

(** ** The graph: [networkx.Graph] *)

(** The adjacency structure of an undirected graph: every node is a key,
    bound to the set of its neighbours.  No node or edge carries
    attributes in this program, so none are represented. *)
Abbreviation Graph := (gmap str (gset str)).

(** [n in G] *)
Definition has_node (G : Graph) (n : str) : Prop := is_Some (G !! n).

(** [G.has_edge(u, v)] *)
Definition has_edge (G : Graph) (u v : str) : Prop := v ∈ default ∅ (G !! u).

#[export] Instance has_node_dec (G : Graph) (n : str) : Decision (has_node G n).
Proof. unfold has_node. apply _. Defined.

#[export] Instance has_edge_dec (G : Graph) (u v : str) : Decision (has_edge G u v).
Proof. unfold has_edge. apply _. Defined.

(** [G.add_node(n)] *)
Definition add_node (G : Graph) (n : str) : Graph :=
  match G !! n with
  | Some _ => G
  | None => <[n := ∅]> G
  end.

(** [G.add_edge(u, v)]: both ends become nodes if they are not, and each is
    entered among the neighbours of the other. *)
Definition add_edge (G : Graph) (u v : str) : Graph :=
  let G := add_node (add_node G u) v in
  let G := <[u := {[v]} ∪ default ∅ (G !! u)]> G in
  <[v := {[u]} ∪ default ∅ (G !! v)]> G.

(** [G.add_edges_from(ebunch_to_add)] on tuples of strings: a 2-tuple is an
    edge; a 3-tuple carries a data dictionary in third place, and updating
    a dictionary from a string succeeds for the empty string only; any other
    length is refused. *)
Fixpoint add_edges_from (G : Graph) (ebunch_to_add : list (list str)) : res Graph :=
  match ebunch_to_add with
  | [] => Ok G
  | e :: ebunch' =>
      match e with
      | [u; v] => add_edges_from (add_edge G u v) ebunch'
      | [u; v; dd] =>
          match dd with
          | [] => add_edges_from (add_edge G u v) ebunch'
          | _ :: _ => Raise ValueError
          end
      | _ => Raise NetworkXError
      end
  end.

(** [for n in G] *)
Definition nodes (G : Graph) : list str := (map_to_list G).*1.

(** [G.edges]: each node in turn reports the neighbours that have not been
    visited as nodes before it, so every edge is reported once. *)
Fixpoint edges_from (adj : list (str * gset str)) (seen : gset str) : list (str * str) :=
  match adj with
  | [] => []
  | (n, nbrs) :: adj' =>
      map (pair n) (filter (fun nbr => nbr ∉ seen) (elements nbrs))
      ++ edges_from adj' ({[n]} ∪ seen)
  end.

Definition edges (G : Graph) : list (str * str) := edges_from (map_to_list G) ∅.

(** [G.number_of_edges()]: half the sum of the degrees, a loop counting
    twice in the degree of its node. *)
Definition degree (n : str) (nbrs : gset str) : nat :=
  size nbrs + (if bool_decide (n ∈ nbrs) then 1 else 0)%nat.

Definition degree_sum (G : Graph) : nat :=
  map_fold (fun n nbrs acc => (degree n nbrs + acc)%nat) 0%nat G.

Definition number_of_edges (G : Graph) : nat := (degree_sum G / 2)%nat.

(** [itertools.combinations(iterable, r)]: the [r]-length tuples of
    elements, in the order of their positions. *)
Fixpoint combinations {A} (l : list A) (r : nat) {struct l} : list (list A) :=
  match r, l with
  | O, _ => [[]]
  | S _, [] => []
  | S r', x :: l' => map (cons x) (combinations l' r') ++ combinations l' r
  end.

(** The binomial coefficient C(n, k). *)
Fixpoint choose (n k : nat) : nat :=
  match k, n with
  | O, _ => 1%nat
  | S _, O => 0%nat
  | S k', S n' => (choose n' k' + choose n' k)%nat
  end.

(** ** The node-link document: [node_link_data] and [node_link_graph] *)

(** The entries of the document: a node is [{"id": name}], a link is
    [{"source": name, "target": name}]. *)
Definition node_entry (n : str) : json := JDict [(py "id", JStr n)].

Definition link_entry (e : str * str) : json :=
  JDict [(py "source", JStr (fst e)); (py "target", JStr (snd e))].

(** Modelled from the spec: the node-link document (the body of
    [networkx]'s [node_link_data] is not part of the source).  It is a JSON
    object with a node list and a link list; [networkx] adds the flags
    [directed] and [multigraph] and the graph attributes, here none. *)
Definition node_link_document (node_list : list str) (link_list : list (str * str)) : json :=
  JDict [ (py "directed", JBool false);
          (py "multigraph", JBool false);
          (py "graph", JDict []);
          (py "nodes", JList (map node_entry node_list));
          (py "links", JList (map link_entry link_list)) ].

(** Modelled from the spec: encoding (see [node_link_document]) lists the
    nodes of the graph and its edges, each edge once. *)
Definition node_link_data (G : Graph) : json :=
  node_link_document (nodes G) (edges G).

(** [obj.get(key, dflt)] and [obj[key]] for a string key. *)
Definition get_default (obj : json) (key : str) (dflt : json) : res json :=
  match obj with
  | JDict d => Ok (default dflt (assoc key d))
  | _ => Raise AttributeError
  end.

Definition getitem (obj : json) (key : str) : res json :=
  match obj with
  | JDict d =>
      match assoc key d with
      | Some v => Ok v
      | None => Raise KeyError
      end
  | _ => Raise TypeError
  end.

(** Modelled from the spec: reading one node entry and one link entry of
    the document (the reader is [networkx]'s, not part of the source).  A
    node or an end of a link that is not a string has no counterpart in
    [Graph] and is reported as [OutsideModel]. *)
Definition node_id (d : json) : res str :=
  match d with
  | JDict kv =>
      match assoc (py "id") kv with
      | Some (JStr n) => Ok n
      | _ => Raise OutsideModel
      end
  | _ => Raise AttributeError
  end.

Definition link_ends (d : json) : res (str * str) :=
  match d with
  | JDict kv =>
      match assoc (py "source") kv with
      | None => Raise KeyError
      | Some (JStr u) =>
          match assoc (py "target") kv with
          | None => Raise KeyError
          | Some (JStr v) => Ok (u, v)
          | Some _ => Raise OutsideModel
          end
      | Some _ => Raise OutsideModel
      end
  | _ => Raise TypeError
  end.

(** Modelled from the spec: decoding (the body of [networkx]'s
    [node_link_graph] is not part of the source).  The nodes of the node
    list are added, then an edge for each entry of the link list; adding a
    node or an edge that is there already changes nothing.  A document
    flagged as directed or as a multigraph (the reader's default when the
    flag is absent) describes a graph that [Graph] does not represent. *)
Definition node_link_graph (data : json) : res Graph :=
  multigraph ← get_default data (py "multigraph") (JBool true);
  directed ← get_default data (py "directed") (JBool false);
  attrs ← get_default data (py "graph") (JDict []);
  match attrs with
  | JDict _ =>
      if truthy multigraph || truthy directed then Raise OutsideModel
      else
        node_entries ← getitem data (py "nodes") ≫= iterate;
        ids ← res_map node_id node_entries;
        link_entries ← getitem data (py "links") ≫= iterate;
        ends ← res_map link_ends link_entries;
        Ok (foldl (fun G e => add_edge G (fst e) (snd e)) (foldl add_node ∅ ids) ends)
  | _ => Raise OutsideModel
  end.

(** ** Printing, files and the process *)

(** What a [print] call writes: a line of text, the rendering of a document
    by [json.dumps], or the rendering of the keys of a dictionary. *)
Inductive out_line :=
  | Text (s : str)
  | JsonDump (j : json)
  | DictKeys (keys : list str).

Inductive event :=
  | Print (line : out_line)
  | WriteFile (path : str) (content : json).

(** A computation that prints and writes: the events it caused, in order,
    and its result or the exception that ended it. *)
Definition io (A : Type) : Type := list event * res A.

#[export] Instance io_ret : MRet io := fun A a => ([], Ok a).
#[export] Instance io_bind : MBind io := fun A B f m =>
  match m with
  | (evs, Ok a) => let (evs', r) := f a in (evs ++ evs', r)
  | (evs, Raise e) => (evs, Raise e)
  end.

Definition lift {A} (r : res A) : io A := ([], r).
Definition raise {A} (e : exn) : io A := ([], Raise e).
Definition print (line : out_line) : io unit := ([Print line], Ok tt).

(** Reading a local variable: one that was never assigned raises. *)
Definition read_local {A} (x : option A) : io A :=
  match x with
  | Some v => mret v
  | None => raise UnboundLocalError
  end.

(** [sys.exit()] *)
Definition sys_exit {A} : io A := raise (SystemExit None).

(** The exit status of the process when the program ends with [r]: zero
    after a normal end and after [sys.exit()], the given status after
    [sys.exit(n)], one after any other uncaught exception. *)
Definition exit_status {A} (r : res A) : Z :=
  match r with
  | Ok _ => 0%Z
  | Raise (SystemExit None) => 0%Z
  | Raise (SystemExit (Some n)) => n
  | Raise _ => 1%Z
  end.

(** What [open] finds at a path: nothing that can be opened, a file that
    [json.load] rejects, or a JSON document. *)
Inductive file_state :=
  | Unopenable
  | Unparsable
  | Document (j : json).

Record filesystem := {
  listdir : str -> option (list str);
  file_at : str -> file_state;
  creatable : str -> bool
}.

(** [str(type(obj))] *)
Definition type_name (obj : json) : str :=
  match obj with
  | JNull => py "<class 'NoneType'>"
  | JBool _ => py "<class 'bool'>"
  | JInt _ => py "<class 'int'>"
  | JFloat _ => py "<class 'float'>"
  | JStr _ => py "<class 'str'>"
  | JList _ => py "<class 'list'>"
  | JDict _ => py "<class 'dict'>"
  end.

(** [parts[-1]] *)
Definition getlast {A} (parts : list A) : res A :=
  match last parts with
  | Some x => Ok x
  | None => Raise IndexError
  end.

(** ** [load_json] *)

(** The printing done when [print_content] is set. *)
Definition print_contents (file_path : str) (raw_data : json) : io unit :=
  parts ← lift (split file_path (py "/"));
  name ← lift (getlast parts);
  print (Text (py "File " ++ name ++ py " contents:"));;
  print (Text []);;
  print (JsonDump raw_data);;
  print (Text []);;
  print (Text (py "The 'json' Python module returns a dictionary, which can be confirmed by invoking the 'type' function on the loaded data: "
               ++ type_name raw_data ++ py "."));;
  match raw_data with
  | JDict d => print (DictKeys (map fst d))
  | _ => raise AttributeError
  end.

(** In the handler of [OSError] the local [file] has not been assigned:
    the assignment [file = open(...)] is the statement that failed. *)
Definition load_json (fs : filesystem) (file_path : str) (print_content : bool) : io json :=
  match file_at fs file_path with
  | Unopenable =>
      let file : option str := None in
      file ← read_local file;
      print (Text (py "Could not open file:" ++ file ++ py ", exiting program."));;
      sys_exit
  | Unparsable => raise ValueError
  | Document raw_data =>
      (if print_content then print_contents file_path raw_data else mret tt);;
      mret raw_data
  end.

(** ** Uncaught exceptions and the standard error stream *)

(** An exception object, as far as the interpreter's report of it shows:
    its type and the file name that an [OSError] raised by [open] carries
    and shows in its message. *)
Record exception := {
  exc_type : exn;
  exc_filename : option str
}.

(** A raised exception together with the exceptions that were being handled
    when it was raised (the chain of [__context__]), the nearest first. *)
Definition raised : Type := exception * list exception.

(** A computation whose exceptions are kept as objects. *)
Definition traced (A : Type) : Type := list event * (A + raised).

#[export] Instance traced_ret : MRet traced := fun A a => ([], inl a).
#[export] Instance traced_bind : MBind traced := fun A B f m =>
  match m with
  | (evs, inl a) => let (evs', r) := f a in (evs ++ evs', r)
  | (evs, inr x) => (evs, inr x)
  end.

(** A computation of the plain kind run inside a traced one: an exception
    of it carries no file name and is raised while no other is handled. *)
Definition untraced {A} (m : io A) : traced A :=
  match m with
  | (evs, Ok a) => (evs, inl a)
  | (evs, Raise e) => (evs, inr ({| exc_type := e; exc_filename := None |}, []))
  end.

(** The plain computation under a traced one: of an exception only the type
    is kept. *)
Definition forget {A} (m : traced A) : io A :=
  match m with
  | (evs, inl a) => (evs, Ok a)
  | (evs, inr x) => (evs, Raise (exc_type (fst x)))
  end.

(** What [open(file_path, 'r')] returns: a file that [json.load] rejects or
    one that holds a document. *)
Inductive opened :=
  | Garbled
  | Holding (raw_data : json).

(** [open(file_path, 'r')]: the [OSError] of a file that cannot be opened
    carries the path. *)
Definition open_r (fs : filesystem) (file_path : str) : traced opened :=
  match file_at fs file_path with
  | Unopenable => ([], inr ({| exc_type := OSError; exc_filename := Some file_path |}, []))
  | Unparsable => mret Garbled
  | Document raw_data => mret (Holding raw_data)
  end.

(** [try: body / except OSError: handler]: an exception raised by the
    handler has the handled [OSError], and what that one had, as its
    context. *)
Definition try_except_OSError {A} (body handler : traced A) : traced A :=
  match body with
  | (evs, inr (x, context)) =>
      match exc_type x with
      | OSError =>
          match handler with
          | (evs', inl a) => (evs ++ evs', inl a)
          | (evs', inr (y, context')) => (evs ++ evs', inr (y, context' ++ x :: context))
          end
      | _ => body
      end
  | (_, inl _) => body
  end.

(** [load_json] with its exceptions as objects: the [try] statement around
    [open], then the [with] block. *)
Definition load_json_traced (fs : filesystem) (file_path : str) (print_content : bool)
    : traced json :=
  file ← try_except_OSError (open_r fs file_path)
            (untraced (file ← read_local (None : option str);
                       print (Text (py "Could not open file:" ++ file
                                    ++ py ", exiting program."));;
                       sys_exit));
  untraced (match file with
            | Garbled => raise ValueError
            | Holding raw_data =>
                (if print_content then print_contents file_path raw_data else mret tt);;
                mret raw_data
            end).

(** What the interpreter writes to the standard error stream for an
    exception that nothing caught: the exceptions of the chain, the oldest
    first, each shown with its type and its message (for the [OSError] of
    [open], the message gives the file name); [SystemExit] is not
    reported. *)
Definition traceback (x : raised) : list exception :=
  match exc_type (fst x) with
  | SystemExit _ => []
  | _ => rev (snd x) ++ [fst x]
  end.

(** The end of a process whose program is the computation: what it printed
    and wrote, what the interpreter reported on the standard error stream,
    and the exit status. *)
Record process_end := {
  events : list event;
  stderr : list exception;
  status : Z
}.

Definition run_process {A} (m : traced A) : process_end :=
  {| events := fst m;
     stderr := match snd m with
               | inl _ => []
               | inr x => traceback x
               end;
     status := exit_status (snd (forget m)) |}.

(** ** [build_graph_from_directory] *)

(** The body of the loop once the authors of a file are known: a set that
    is not empty gives the edges between all pairs of its members.  The set
    is iterated as [elements] arranges it; [add_edges_from_any_order] shows
    that the arrangement does not matter. *)
Definition add_authors (G : Graph) (authors : option (gset str)) : res Graph :=
  match authors with
  | Some a =>
      if bool_decide (a ≠ ∅)
      then add_edges_from G (combinations (elements a) 2)
      else Ok G
  | None => Ok G
  end.

(** The loop over [file_list]; the progress bar only displays. *)
Fixpoint parse_files (fs : filesystem) (dir_path : str) (file_list : list str)
    (G : Graph) : io Graph :=
  match file_list with
  | [] => mret G
  | f :: file_list' =>
      let file_path := dir_path ++ f in
      raw_data ← load_json fs file_path false;
      authors ← lift (parse_authors_from_comments raw_data);
      G ← lift (add_authors G authors);
      parse_files fs dir_path file_list' G
  end.

(** [os.listdir(path)] and [open(path, 'w')] *)
Definition os_listdir (fs : filesystem) (path : str) : io (list str) :=
  match listdir fs path with
  | Some names => mret names
  | None => raise OSError
  end.

Definition open_w (fs : filesystem) (path : str) : io unit :=
  if creatable fs path then mret tt else raise OSError.

(** The directory path with its final slash. *)
Definition with_slash (dir_path : str) : res str :=
  c ← getlast dir_path;
  Ok (if decide (c ≠ 47) then dir_path ++ py "/" else dir_path).

(** The files of the listing that the loop reads. *)
Definition json_files (names : list str) : list str :=
  filter (fun json_file => endswith json_file (py ".json") = true) names.

(** [dir_path.split('/')[0] + '/' + filename + '.json'] *)
Definition save_path (dir_path filename : str) : res str :=
  parts ← split dir_path (py "/");
  match parts with
  | top :: _ => Ok (top ++ py "/" ++ filename ++ py ".json")
  | [] => Raise IndexError
  end.

Definition build_graph_from_directory (fs : filesystem) (dir_path : str)
    (save : bool) (filename : str) : io Graph :=
  dir_path ← lift (with_slash dir_path);
  names ← os_listdir fs dir_path;
  let file_list := json_files names in
  G ← parse_files fs dir_path file_list ∅;
  (if save then
     out_file ← lift (save_path dir_path filename);
     open_w fs out_file;;
     ([WriteFile out_file (node_link_data G)], Ok tt)
   else mret tt);;
  mret G.

(** ** [load_json_graph] *)

Definition load_json_graph (fs : filesystem) (file_path : str) : io Graph :=
  match file_at fs file_path with
  | Unopenable => raise OSError
  | Unparsable => raise ValueError
  | Document data => lift (node_link_graph data)
  end.

(** ** Notions used to state the properties *)

(** The paths of the record files that the builder reads in a directory. *)
Definition record_files (fs : filesystem) (dir_path : str) : list str :=
  match with_slash dir_path with
  | Ok dir_path =>
      match listdir fs dir_path with
      | Some names => map (app dir_path) (json_files names)
      | None => []
      end
  | Raise _ => []
  end.

(** The record at [file_path] loads and its extracted author set is [X]. *)
Definition extracted (fs : filesystem) (file_path : str) (X : gset str) : Prop :=
  ∃ raw_data,
    load_json fs file_path false = ([], Ok raw_data) ∧
    parse_authors_from_comments raw_data = Ok (Some X).

(** The same files, listed as [names] in every directory. *)
Definition with_listing (fs : filesystem) (names : list str) : filesystem :=
  {| listdir := fun _ => Some names;
     file_at := file_at fs;
     creatable := creatable fs |}.

(** The authors extracted from the record at a path: none when the file
    does not hold a record or the record gives no author set. *)
Definition authors_of (fs : filesystem) (file_path : str) : gset str :=
  match file_at fs file_path with
  | Document raw_data =>
      match parse_authors_from_comments raw_data with
      | Ok (Some X) => X
      | _ => ∅
      end
  | _ => ∅
  end.

(** Following the specification: the clique over a set of authors, every
    member joined to every other member.  Its nodes are the ends of its
    edges, so a set of fewer than two authors gives the empty graph. *)
Definition clique (X : gset str) : Graph :=
  if decide (size X < 2)%nat then ∅
  else set_to_map (fun a => (a, X ∖ {[a]})) X.

(** Following the specification: the union of graphs has the nodes and the
    edges of all of them. *)
Definition graph_union (G1 G2 : Graph) : Graph :=
  union_with (fun nbrs1 nbrs2 => Some (nbrs1 ∪ nbrs2)) G1 G2.

Definition graph_unions (Gs : list Graph) : Graph := foldr graph_union ∅ Gs.

(** The adjacency is symmetric, as [add_node] and [add_edge] keep it:
    every neighbour of a node has that node among its own neighbours. *)
Definition symmetric (G : Graph) : Prop :=
  map_Forall (fun a nbrs => set_Forall (fun b => a ∈ default ∅ (G !! b)) nbrs) G.

(** The shape of a match of [common_pattern]: an uppercase letter, not
    followed by an equals sign and an uppercase letter, then at least two
    characters of the class. *)
Definition token (m : str) : Prop :=
  ∃ c rest,
    m = c :: rest ∧ is_upper c = true ∧ eq_upper_ahead rest = false ∧
    (2 ≤ length rest)%nat ∧ Forall (fun x => name_char x = true) rest.

(** The four contexts of a match, on the text before it and after it:
    between underscores, between square brackets, after dash-space and
    before space-parenthesis or comma-space, after an opening parenthesis
    and before a comma. *)
Definition in_context (before after : str) : Prop :=
  (endswith before (py "_") = true ∧ startswith after (py "_") = true) ∨
  (endswith before (py "[") = true ∧ startswith after (py "]") = true) ∨
  (endswith before (py "- ") = true ∧
   (startswith after (py " (") = true ∨ startswith after (py ", ") = true)) ∨
  (endswith before (py "(") = true ∧ startswith after (py ",") = true).

(** The opening and closing delimiters of the four contexts. *)
Definition delimiters : list (str * str) :=
  [ (py "_", py "_"); (py "[", py "]"); (py "- ", py " (");
    (py "- ", py ", "); (py "(", py ",") ].

(** The token of the specification: an uppercase letter first, at least
    two characters, none of them a digit or an excluded character. *)
Definition spec_token (m : str) : Prop :=
  ∃ c rest,
    m = c :: rest ∧ is_upper c = true ∧ (2 ≤ length m)%nat ∧
    Forall (fun x => name_char x = true) m.

(** [s] occurs in [t]. *)
Definition occurs_in (s t : str) : Prop := ∃ before after, t = before ++ s ++ after.

(** A match at a position of a text, [before] being the text up to the
    position and [rest] the text from it on: the shortest token that starts
    there and stands in one of the contexts. *)
Definition match_at (before rest m : str) : Prop :=
  ∃ after, rest = m ++ after ∧ token m ∧ in_context before after ∧
    ∀ p r, m = p ++ r → (3 ≤ length p)%nat → r ≠ [] →
           ¬ in_context before (r ++ after).

(** The matches of a scan of [rest] from the left, [before] being the text
    already passed: the first is the match at the leftmost position that
    has one, and the scan goes on right after it, so the matches do not
    overlap; the scan ends when no position of what is left has a match. *)
Inductive scan : str → str → list str → Prop :=
  | scan_end before rest :
      (∀ skipped rest' m, rest = skipped ++ rest' →
                          ¬ match_at (before ++ skipped) rest' m) →
      scan before rest []
  | scan_match before skipped m after ms :
      (∀ s1 s2 m', skipped = s1 ++ s2 → s2 ≠ [] →
                   ¬ match_at (before ++ s1) (s2 ++ m ++ after) m') →
      match_at (before ++ skipped) (m ++ after) m →
      scan (before ++ skipped ++ m) after ms →
      scan before (skipped ++ m ++ after) (m :: ms).

(** The part of [build_graph_from_directory] after the loop, on its own:
    what is written when [save] is set, and the graph returned. *)
Definition save_graph (fs : filesystem) (dir_path filename : str) (save : bool)
    (G : Graph) : io Graph :=
  if save then
    match save_path dir_path filename with
    | Raise e => ([], Raise e)
    | Ok out_file =>
        if creatable fs out_file
        then ([WriteFile out_file (node_link_data G)], Ok G)
        else ([], Raise OSError)
    end
  else ([], Ok G).

#[export] Instance symmetric_dec (G : Graph) : Decision (symmetric G).
Proof. unfold symmetric. apply _. Defined.

(** ** Sample data *)

(** A record whose first result carries the given comments. *)
Definition record_of (comments : list str) : json :=
  JDict [(py "results", JList [JDict [(py "comment", JList (map JStr comments))]])].

(** A directory of three records and one other file. *)
Definition example_fs : filesystem :=
  {| listdir := fun d =>
       if decide (d = py "data/sequences/")
       then Some [py "A000001.json"; py "A000002.json"; py "A000003.json"; py "notes.txt"]
       else None;
     file_at := fun p =>
       if decide (p = py "data/sequences/A000001.json")
       then Document (record_of [py "_Alice Example_, _Dana Lee_"])
       else if decide (p = py "data/sequences/A000002.json")
       then Document (record_of [py "- Bob Carter (Jan 01 2020)"])
       else if decide (p = py "data/sequences/A000003.json")
       then Document (record_of [py "_Dana Lee_ and [Alice Example]";
                                 py "(Eve Moore, Feb 02 2021)"])
       else Unopenable;
     creatable := fun _ => true |}.

(** The graph that a run returned, and whether the run ended normally
    without printing or writing. *)
Definition returned_graph (r : io Graph) : Graph :=
  match r with
  | (_, Ok G) => G
  | (_, Raise _) => ∅
  end.

Definition returns_quietly (r : io Graph) : bool :=
  match r with
  | ([], Ok _) => true
  | _ => false
  end.

(** The graph built from it. *)
Definition example_graph : Graph :=
  returned_graph
    (build_graph_from_directory example_fs (py "data/sequences") false
       (py "comments_authors_graph")).

(** A file system that holds the saved document of [example_graph]. *)
Definition example_saved_fs : filesystem :=
  {| listdir := fun _ => None;
     file_at := fun p =>
       if decide (p = py "data/comments_authors_graph.json")
       then Document (node_link_data example_graph)
       else Unopenable;
     creatable := fun _ => false |}.

(** ** [main] *)

(** The double quote, which the messages of [main] contain. *)
Definition dquote : str := [34].

(** The paths and the file name that [main] and the defaults fix. *)
Definition sample_path : str := py "data/sequences/A000001.json".
Definition sequences_dir : str := py "data/sequences".
Definition default_filename : str := py "comments_authors_graph".
Definition graph_path : str := py "data/comments_authors_graph.json".

Definition no_results_message : str :=
  py "No " ++ dquote ++ py "results" ++ dquote ++ py " section found.".

Definition no_comments_message : str :=
  py "No " ++ dquote ++ py "comments" ++ dquote ++ py " subsection found.".

(** [main(args)], with [build_graph] the value of [args.build_graph]: the
    sample file is loaded and printed, then its first result and the
    comments of that result, then the graph is built and saved, or loaded.
    The graph is bound to a local and not returned. *)
Definition main (fs : filesystem) (build_graph : str) : io unit :=
  print (Text (py "Printing sample OEIS JSON file..."));;
  file ← load_json fs sample_path true;
  print (Text (py "Printing sample file " ++ dquote ++ py "results" ++ dquote
               ++ py "' section..."));;
  results ← lift (get file (py "results"));
  (if truthy results then
     first ← lift (getitem0 results);
     print (JsonDump first)
   else print (Text no_results_message));;
  print (Text (py "Printing sample file " ++ dquote ++ py "comment" ++ dquote
               ++ py "'s subsection..."));;
  first ← lift (getitem0 results);
  comment_list ← lift (get first (py "comment"));
  (if truthy comment_list then print (JsonDump comment_list)
   else print (Text no_comments_message));;
  if decide (build_graph = py "True") then
    print (Text (py "Building graph G, where:"));;
    print (Text (py "- nodes represent all unique authors that can be found in each comment of every sequence;"));;
    print (Text (py "- edges link two authors who have commented the same sequence."));;
    G ← build_graph_from_directory fs sequences_dir true default_filename;
    mret tt
  else
    print (Text (py "Loading graph G from " ++ dquote ++ py "data/comments_authors_graph.json"
                 ++ dquote ++ py "."));;
    G ← load_json_graph fs graph_path;
    mret tt.

(** What a run printed and wrote, and how it ended. *)
Definition events_of {A} (m : io A) : list event := fst m.
Definition outcome {A} (m : io A) : res A := snd m.

(** Whether an event is the writing of a file. *)
Definition is_write (ev : event) : bool :=
  match ev with
  | WriteFile _ _ => true
  | Print _ => false
  end.

(** A file system like [example_fs] that also holds the graph saved from
    it. *)
Definition example_reload_fs : filesystem :=
  {| listdir := listdir example_fs;
     file_at := fun p =>
       if decide (p = graph_path)
       then Document (node_link_data example_graph)
       else file_at example_fs p;
     creatable := fun _ => false |}.

(** A file system whose sample file is a search answer without results. *)
Definition example_no_results_fs : filesystem :=
  {| listdir := listdir example_fs;
     file_at := fun p =>
       if decide (p = sample_path)
       then Document (JDict [(py "count", JInt 0); (py "results", JNull)])
       else file_at example_fs p;
     creatable := fun _ => true |}.

(** A directory named by a single path component. *)
Definition example_flat_fs : filesystem :=
  {| listdir := fun d =>
       if decide (d = py "sequences/") then Some [py "A000001.json"] else None;
     file_at := fun p =>
       if decide (p = py "sequences/A000001.json")
       then Document (record_of [py "_Alice Example_, _Dana Lee_"])
       else Unopenable;
     creatable := fun _ => true |}.

(** * Properties *)

(** Evaluates the code points of the string literals in the goal. *)
Ltac py_norm :=
  repeat match goal with
  | |- context [py ?s] =>
      let v := eval vm_compute in (py s) in change (py s) with v
  end.

Section graph_facts.
Implicit Types (G : Graph) (u v a b n : str).

Lemma returns_quietly_eq (r : io Graph) :
  returns_quietly r = true → r = ([], Ok (returned_graph r)).
Proof. by destruct r as [[|? ?] [G|e]]. Qed.

Lemma lookup_add_node G n m :
  add_node G n !! m = if decide (n = m) then Some (default ∅ (G !! n)) else G !! m.
Proof.
  unfold add_node. destruct (G !! n) as [nbrs|] eqn:E.
  - case_decide; subst; simpl; congruence.
  - rewrite lookup_insert. case_decide; done.
Qed.

Lemma has_node_add_node G n m : has_node (add_node G n) m ↔ has_node G m ∨ m = n.
Proof.
  unfold has_node. rewrite lookup_add_node. case_decide; subst.
  - split; [auto|intros _; eauto].
  - split; [auto|intros [?|?]; congruence].
Qed.

Lemma has_edge_add_node G n a b : has_edge (add_node G n) a b ↔ has_edge G a b.
Proof.
  unfold has_edge. rewrite lookup_add_node. case_decide; subst; [|done].
  by destruct (G !! a).
Qed.

Lemma lookup_add_edge G u v n :
  add_edge G u v !! n =
  if decide (n = u ∨ n = v)
  then Some ((if decide (n = u) then {[v]} else ∅)
             ∪ (if decide (n = v) then {[u]} else ∅)
             ∪ default ∅ (G !! n))
  else G !! n.
Proof.
  unfold add_edge.
  destruct (decide (n = u)) as [Hu|Hu], (decide (n = v)) as [Hv|Hv].
  - rewrite decide_True by auto. subst u v.
    rewrite lookup_insert_eq, lookup_insert_eq. f_equal.
    rewrite lookup_add_node, decide_True by done. simpl.
    rewrite lookup_add_node, decide_True by done. simpl. set_solver.
  - rewrite decide_True by auto. subst u.
    rewrite lookup_insert_ne by done. rewrite lookup_insert_eq. f_equal.
    rewrite lookup_add_node, decide_False by done.
    rewrite lookup_add_node, decide_True by done. simpl. set_solver.
  - rewrite decide_True by auto. subst v.
    rewrite lookup_insert_eq. f_equal.
    rewrite lookup_insert_ne by done.
    rewrite lookup_add_node, decide_True by done. simpl.
    rewrite lookup_add_node, decide_False by done. set_solver.
  - rewrite decide_False by tauto.
    rewrite !lookup_insert_ne by done.
    rewrite !lookup_add_node, !decide_False by done. done.
Qed.

Lemma has_node_add_edge G u v n :
  has_node (add_edge G u v) n ↔ has_node G n ∨ n = u ∨ n = v.
Proof.
  unfold has_node. rewrite lookup_add_edge. case_decide.
  - split; [tauto|eauto].
  - split; [tauto|]. intros [?|?]; [done|tauto].
Qed.

Lemma has_edge_add_edge G u v a b :
  has_edge (add_edge G u v) a b ↔
  has_edge G a b ∨ (a = u ∧ b = v) ∨ (a = v ∧ b = u).
Proof.
  unfold has_edge. rewrite lookup_add_edge.
  repeat case_decide; simpl; set_solver.
Qed.

Lemma graph_eq G1 G2 :
  (∀ n, has_node G1 n ↔ has_node G2 n) →
  (∀ a b, has_edge G1 a b ↔ has_edge G2 a b) →
  G1 = G2.
Proof.
  intros Hn He. apply map_eq. intros n.
  specialize (Hn n). unfold has_node in Hn.
  destruct (G1 !! n) as [s1|] eqn:E1, (G2 !! n) as [s2|] eqn:E2.
  - f_equal. apply set_eq. intros b. specialize (He n b).
    unfold has_edge in He. by rewrite E1, E2 in He.
  - destruct Hn as [Hn _]. destruct Hn; eauto. done.
  - destruct Hn as [_ Hn]. destruct Hn; eauto. done.
  - done.
Qed.


Lemma add_edges_from_pairs l : ∀ G,
  Forall (λ e, length e = 2%nat) l →
  ∃ G', add_edges_from G l = Ok G' ∧
    (∀ n, has_node G' n ↔ has_node G n ∨ ∃ e, e ∈ l ∧ n ∈ e) ∧
    (∀ a b, has_edge G' a b ↔ has_edge G a b ∨ [a; b] ∈ l ∨ [b; a] ∈ l).
Proof.
  induction l as [|e l IH]; intros G Hl.
  - exists G. split; [done|]. split; intros; set_solver.
  - apply Forall_cons in Hl as [He Hl].
    destruct e as [|u [|v [|? ?]]]; try done. simpl.
    destruct (IH (add_edge G u v) Hl) as (G' & -> & Hn & Hedge).
    exists G'. split; [done|]. split.
    + intros n. rewrite Hn, has_node_add_edge. split.
      * intros [[?|[-> | ->]]|(e & ? & ?)]; eauto.
        -- right. exists [u; v]. set_solver.
        -- right. exists [u; v]. set_solver.
        -- right. exists e. set_solver.
      * intros [?|(e & [-> | ?]%elem_of_cons & Hin)]; eauto.
        set_solver.
    + intros a b. rewrite Hedge, has_edge_add_edge. set_solver.
Qed.

End graph_facts.

Section combinations_facts.
Context {A : Type}.
Implicit Types (l e : list A) (r : nat).

Lemma combinations_length l : ∀ r, length (combinations l r) = choose (length l) r.
Proof.
  induction l as [|x l IH]; intros [|r]; simpl; try done.
  by rewrite length_app, length_map, !IH.
Qed.

Lemma combinations_tuple_length l : ∀ r e, e ∈ combinations l r → length e = r.
Proof.
  induction l as [|x l IH]; intros [|r] e; simpl.
  - by intros ->%list_elem_of_singleton.
  - by intros ?%elem_of_nil.
  - by intros ->%list_elem_of_singleton.
  - intros [(e' & -> & He')%list_elem_of_fmap|He]%elem_of_app.
    + simpl. f_equal. by apply IH.
    + by apply IH.
Qed.

Lemma combinations_0 l : combinations l 0 = [[]].
Proof. by destruct l. Qed.

Lemma combinations_1 l : combinations l 1 = map (λ y, [y]) l.
Proof.
  induction l as [|y l IH]; [done|].
  simpl. by rewrite combinations_0, IH.
Qed.

Lemma combinations_2_cons x l :
  combinations (x :: l) 2 = map (λ y, [x; y]) l ++ combinations l 2.
Proof.
  simpl. f_equal. rewrite combinations_1.
  induction l as [|y l IH]; [done|]. simpl. by f_equal.
Qed.

Lemma elem_of_combinations_2 l a b :
  [a; b] ∈ combinations l 2 → a ∈ l ∧ b ∈ l.
Proof.
  induction l as [|x l IH]; [by intros ?%elem_of_nil|].
  rewrite combinations_2_cons.
  intros [(y & [= -> ->] & Hy)%list_elem_of_fmap|H]%elem_of_app.
  - set_solver.
  - set_solver.
Qed.

Lemma combinations_2_complete l a b :
  a ∈ l → b ∈ l → a ≠ b → [a; b] ∈ combinations l 2 ∨ [b; a] ∈ combinations l 2.
Proof.
  induction l as [|x l IH]; [by intros ?%elem_of_nil|].
  rewrite combinations_2_cons. intros Ha Hb Hab.
  apply elem_of_cons in Ha as [->|Ha]; apply elem_of_cons in Hb as [->|Hb].
  - done.
  - left. apply elem_of_app. left. apply list_elem_of_fmap. eauto.
  - right. apply elem_of_app. left. apply list_elem_of_fmap. eauto.
  - destruct (IH Ha Hb Hab); [left|right]; apply elem_of_app; by right.
Qed.

Lemma combinations_2_distinct l a b :
  NoDup l → [a; b] ∈ combinations l 2 → a ≠ b ∧ [b; a] ∉ combinations l 2.
Proof.
  induction l as [|x l IH]; [by intros _ ?%elem_of_nil|].
  rewrite combinations_2_cons. intros [Hx Hl]%NoDup_cons.
  intros [(y & [= -> ->] & Hy)%list_elem_of_fmap|H]%elem_of_app.
  - split; [by intros ->|].
    intros [(z & [= -> ->] & Hz)%list_elem_of_fmap|H]%elem_of_app; [done|].
    apply elem_of_combinations_2 in H as [_ ?]. done.
  - destruct (IH Hl H) as [Hab Hba]. split; [done|].
    intros [(z & [= -> ->] & Hz)%list_elem_of_fmap|H']%elem_of_app; [|done].
    apply elem_of_combinations_2 in H as [_ ?]. done.
Qed.

Lemma combinations_2_NoDup l : NoDup l → NoDup (combinations l 2).
Proof.
  induction l as [|x l IH]; intros Hl.
  - constructor.
  - rewrite combinations_2_cons. apply NoDup_cons in Hl as [Hx Hl].
    apply NoDup_app. split; [|split].
    + apply NoDup_fmap_2; [|done]. by intros ?? [=].
    + intros e (y & -> & Hy)%list_elem_of_fmap He.
      apply elem_of_combinations_2 in He as [? _]. done.
    + by apply IH.
Qed.

End combinations_facts.

Section builder_facts.
Implicit Types (G : Graph) (u v a b n : str) (X : gset str).

Lemma io_bind_quiet {A B} (f : A → io B) (a : A) : (([], Ok a) : io A) ≫= f = f a.
Proof. unfold mbind, io_bind. by destruct (f a). Qed.

(** Called without [print_content], the loader prints nothing. *)
Lemma load_json_quiet fs file_path :
  load_json fs file_path false =
  ([], match file_at fs file_path with
       | Unopenable => Raise UnboundLocalError
       | Unparsable => Raise ValueError
       | Document raw_data => Ok raw_data
       end).
Proof. unfold load_json. by destruct (file_at fs file_path). Qed.

Lemma extracted_iff fs file_path X :
  extracted fs file_path X ↔
  ∃ raw_data, file_at fs file_path = Document raw_data ∧
              parse_authors_from_comments raw_data = Ok (Some X).
Proof.
  unfold extracted. setoid_rewrite load_json_quiet.
  split; intros (raw & H1 & H2); exists raw; split; try done.
  - by destruct (file_at fs file_path); simplify_eq.
  - by rewrite H1.
Qed.

(** The edges of all pairs of a duplicate-free list. *)
Lemma add_edges_from_combinations G (l : list str) :
  NoDup l →
  ∃ G', add_edges_from G (combinations l 2) = Ok G' ∧
    (∀ n, has_node G' n ↔ has_node G n ∨ (n ∈ l ∧ ∃ m, m ∈ l ∧ m ≠ n)) ∧
    (∀ a b, has_edge G' a b ↔ has_edge G a b ∨ (a ∈ l ∧ b ∈ l ∧ a ≠ b)).
Proof.
  intros Hl.
  destruct (add_edges_from_pairs (combinations l 2) G) as (G' & HG' & Hn & He).
  { apply Forall_forall. intros e. apply combinations_tuple_length. }
  exists G'. split; [done|]. split.
  - intros n. rewrite Hn. split.
    + intros [?|(e & He' & Hne)]; [by left|right].
      pose proof (combinations_tuple_length _ _ _ He') as Hlen.
      destruct e as [|a [|b [|? ?]]]; try done.
      pose proof (combinations_2_distinct _ _ _ Hl He') as [Hab _].
      apply elem_of_combinations_2 in He' as [Ha Hb].
      apply elem_of_cons in Hne as [->|Hne]; [eauto|].
      apply list_elem_of_singleton in Hne as ->. eauto.
    + intros [?|(HnX & m & HmX & Hmn)]; [by left|right].
      destruct (combinations_2_complete l n m) as [H|H]; [done..| |].
      * exists [n; m]. set_solver.
      * exists [m; n]. set_solver.
  - intros a b. rewrite He. split.
    + intros [?|[H|H]]; [by left|right..].
      * pose proof (combinations_2_distinct _ _ _ Hl H) as [Hab _].
        by apply elem_of_combinations_2 in H as [Ha Hb].
      * pose proof (combinations_2_distinct _ _ _ Hl H) as [Hab _].
        by apply elem_of_combinations_2 in H as [Ha Hb].
    + intros [?|(Ha & Hb & Hab)]; [by left|right].
      by apply combinations_2_complete.
Qed.

(** A Python set is iterated in an order that the program does not
    control; the graph does not depend on it: any arrangement of the
    members gives the same edges as the arrangement [elements]. *)
Lemma add_edges_from_any_order G X (l : list str) :
  l ≡ₚ elements X →
  add_edges_from G (combinations l 2) = add_edges_from G (combinations (elements X) 2).
Proof.
  intros Hperm.
  destruct (add_edges_from_combinations G l) as (G1 & -> & Hn1 & He1).
  { rewrite Hperm. apply NoDup_elements. }
  destruct (add_edges_from_combinations G (elements X)) as (G2 & -> & Hn2 & He2).
  { apply NoDup_elements. }
  f_equal. apply graph_eq.
  - intros n. rewrite Hn1, Hn2. by setoid_rewrite Hperm.
  - intros a b. rewrite He1, He2. by setoid_rewrite Hperm.
Qed.

Lemma add_authors_spec G (authors : option (gset str)) :
  ∃ G', add_authors G authors = Ok G' ∧
    (∀ n, has_node G' n ↔
          has_node G n ∨ ∃ X, authors = Some X ∧ n ∈ X ∧ ∃ m, m ∈ X ∧ m ≠ n) ∧
    (∀ a b, has_edge G' a b ↔
          has_edge G a b ∨ ∃ X, authors = Some X ∧ a ∈ X ∧ b ∈ X ∧ a ≠ b).
Proof.
  destruct authors as [X|]; simpl.
  2:{ exists G. split; [done|]. split; intros; split; eauto; intros [?|(?&?&?)]; done. }
  case_bool_decide as HX.
  2:{ assert (X = ∅) as -> by (destruct (decide (X = ∅)); tauto).
      exists G. split; [done|]. split; intros; split; eauto.
      - intros [?|(?&[= <-]&?&?)]; set_solver.
      - intros [?|(?&[= <-]&?&?)]; set_solver. }
  destruct (add_edges_from_combinations G (elements X) (NoDup_elements X))
    as (G' & HG' & Hn & He).
  exists G'. split; [done|]. split.
  - intros n. rewrite Hn. setoid_rewrite elem_of_elements. naive_solver.
  - intros a b. rewrite He. rewrite !elem_of_elements. naive_solver.
Qed.

Lemma parse_files_cons fs dir_path f file_list G :
  parse_files fs dir_path (f :: file_list) G =
  match file_at fs (dir_path ++ f) with
  | Unopenable => ([], Raise UnboundLocalError)
  | Unparsable => ([], Raise ValueError)
  | Document raw_data =>
      match parse_authors_from_comments raw_data with
      | Raise e => ([], Raise e)
      | Ok authors =>
          match add_authors G authors with
          | Raise e => ([], Raise e)
          | Ok G' => parse_files fs dir_path file_list G'
          end
      end
  end.
Proof.
  cbn [parse_files]. rewrite load_json_quiet.
  destruct (file_at fs (dir_path ++ f)) as [| |raw]; try done.
  rewrite io_bind_quiet. unfold lift.
  destruct (parse_authors_from_comments raw) as [authors|e]; [|done].
  rewrite io_bind_quiet.
  destruct (add_authors G authors) as [G'|e]; [|done].
  by rewrite io_bind_quiet.
Qed.

Lemma parse_files_spec fs dir_path file_list : ∀ G evs G',
  parse_files fs dir_path file_list G = (evs, Ok G') →
  evs = [] ∧
  (∀ f, f ∈ file_list → ∃ raw_data authors,
       file_at fs (dir_path ++ f) = Document raw_data ∧
       parse_authors_from_comments raw_data = Ok authors) ∧
  (∀ n, has_node G' n ↔
        has_node G n ∨ ∃ f X, f ∈ file_list ∧ extracted fs (dir_path ++ f) X ∧
                              n ∈ X ∧ ∃ m, m ∈ X ∧ m ≠ n) ∧
  (∀ a b, has_edge G' a b ↔
        has_edge G a b ∨ ∃ f X, f ∈ file_list ∧ extracted fs (dir_path ++ f) X ∧
                                a ∈ X ∧ b ∈ X ∧ a ≠ b).
Proof.
  induction file_list as [|f fl IH]; intros G evs G'.
  - intros [= <- <-]. split; [done|]. split; [by intros ? ?%elem_of_nil|].
    split; intros; split; eauto; intros [?|(?&?&?%elem_of_nil&?)]; done.
  - rewrite parse_files_cons.
    destruct (file_at fs (dir_path ++ f)) as [| |raw] eqn:Hfile; try done.
    destruct (parse_authors_from_comments raw) as [authors|] eqn:Hparse; [|done].
    destruct (add_authors_spec G authors) as (G1 & HG1 & Hn1 & He1).
    rewrite HG1. intros Hrest.
    destruct (IH _ _ _ Hrest) as (-> & Hall & Hn & He).
    split; [done|]. split; [|split].
    + intros f' [->|Hf']%elem_of_cons; eauto.
    + intros n. rewrite Hn, Hn1. split.
      * intros [[?|(X & -> & ? & ?)]|(f' & X & ? & ? & ?)]; [by left|right..].
        -- exists f, X. split; [left|]. split; [|done].
           apply extracted_iff. eauto.
        -- exists f', X. split; [by right|done].
      * intros [?|(f' & X & [->|?]%elem_of_cons & Hex & ?)]; [by left;left| |].
        -- left. right. exists X. split; [|done].
           apply extracted_iff in Hex as (raw' & ? & ?). congruence.
        -- right. exists f', X. done.
    + intros a b. rewrite He, He1. split.
      * intros [[?|(X & -> & ? & ?)]|(f' & X & ? & ? & ?)]; [by left|right..].
        -- exists f, X. split; [left|]. split; [|done].
           apply extracted_iff. eauto.
        -- exists f', X. split; [by right|done].
      * intros [?|(f' & X & [->|?]%elem_of_cons & Hex & ?)]; [by left;left| |].
        -- left. right. exists X. split; [|done].
           apply extracted_iff in Hex as (raw' & ? & ?). congruence.
        -- right. exists f', X. done.
Qed.

Lemma parse_files_total fs dir_path file_list : ∀ G,
  (∀ f, f ∈ file_list → ∃ raw_data authors,
       file_at fs (dir_path ++ f) = Document raw_data ∧
       parse_authors_from_comments raw_data = Ok authors) →
  ∃ G', parse_files fs dir_path file_list G = ([], Ok G').
Proof.
  induction file_list as [|f fl IH]; intros G Hall; [by exists G|].
  rewrite parse_files_cons.
  destruct (Hall f) as (raw & authors & -> & ->); [left|].
  destruct (add_authors_spec G authors) as (G1 & -> & _).
  apply IH. intros f' Hf'. apply Hall. by right.
Qed.

Lemma parse_files_perm fs dir_path file_list file_list' G evs G' :
  file_list ≡ₚ file_list' →
  parse_files fs dir_path file_list G = (evs, Ok G') →
  parse_files fs dir_path file_list' G = (evs, Ok G').
Proof.
  intros Hperm Hrun.
  destruct (parse_files_spec _ _ _ _ _ _ Hrun) as (-> & Hall & Hn & He).
  destruct (parse_files_total fs dir_path file_list' G) as [G'' Hrun'].
  { intros f Hf. apply Hall. by rewrite Hperm. }
  rewrite Hrun'. do 2 f_equal.
  destruct (parse_files_spec _ _ _ _ _ _ Hrun') as (_ & _ & Hn' & He').
  apply graph_eq.
  - intros n. rewrite Hn, Hn'. by setoid_rewrite Hperm.
  - intros a b. rewrite He, He'. by setoid_rewrite Hperm.
Qed.

Lemma parse_files_with_listing fs names dir_path file_list : ∀ G,
  parse_files (with_listing fs names) dir_path file_list G =
  parse_files fs dir_path file_list G.
Proof.
  induction file_list as [|f fl IH]; intros G; [done|].
  rewrite !parse_files_cons. simpl.
  destruct (file_at fs (dir_path ++ f)); try done.
  destruct (parse_authors_from_comments j); try done.
  destruct (add_authors G a); try done.
Qed.

End builder_facts.

Section build_facts.
Implicit Types (G : Graph) (u v a b n : str) (X : gset str).

Lemma build_graph_run fs dir_path save filename :
  build_graph_from_directory fs dir_path save filename =
  match with_slash dir_path with
  | Raise e => ([], Raise e)
  | Ok dir_path =>
      match listdir fs dir_path with
      | None => ([], Raise OSError)
      | Some names =>
          parse_files fs dir_path (json_files names) ∅
            ≫= save_graph fs dir_path filename save
      end
  end.
Proof.
  unfold build_graph_from_directory, lift.
  destruct (with_slash dir_path) as [d|e]; [|done].
  rewrite io_bind_quiet. unfold os_listdir.
  destruct (listdir fs d) as [names|]; [|done].
  unfold mret, io_ret. rewrite io_bind_quiet.
  destruct (parse_files fs d (json_files names) ∅) as [evs [G|e]]; [|done].
  unfold save_graph, mbind, io_bind. destruct save; [|done].
  unfold lift, open_w, mret, io_ret, raise.
  destruct (save_path d filename) as [p|e]; [|done].
  destruct (creatable fs p); simpl; by rewrite ?app_nil_r.
Qed.

Lemma build_graph_inv fs dir_path save filename evs G :
  build_graph_from_directory fs dir_path save filename = (evs, Ok G) →
  ∃ d names,
    with_slash dir_path = Ok d ∧ listdir fs d = Some names ∧
    parse_files fs d (json_files names) ∅ = ([], Ok G) ∧
    save_graph fs d filename save G = (evs, Ok G).
Proof.
  rewrite build_graph_run.
  destruct (with_slash dir_path) as [d|e] eqn:Hd; [|done].
  destruct (listdir fs d) as [names|] eqn:Hnames; [|done].
  destruct (parse_files fs d (json_files names) ∅) as [evs0 [G0|e]] eqn:Hrun; [|done].
  destruct (parse_files_spec _ _ _ _ _ _ Hrun) as (-> & _).
  rewrite io_bind_quiet. intros Hsave. exists d, names.
  assert (G0 = G) as ->.
  { unfold save_graph in Hsave. destruct save; [|congruence].
    destruct (save_path d filename); [|done].
    destruct (creatable fs a); congruence. }
  done.
Qed.

Lemma elem_of_record_files fs dir_path d names file_path :
  with_slash dir_path = Ok d → listdir fs d = Some names →
  file_path ∈ record_files fs dir_path ↔
  ∃ f, f ∈ json_files names ∧ file_path = d ++ f.
Proof.
  intros Hd Hnames. unfold record_files. rewrite Hd, Hnames.
  rewrite list_elem_of_fmap. naive_solver.
Qed.

End build_facts.

Section union_facts.
Implicit Types (G : Graph) (u v a b n : str) (X : gset str).

Lemma small_set_one_member X a b : (size X < 2)%nat → a ∈ X → b ∈ X → a = b.
Proof.
  intros Hsize Ha Hb. destruct (decide (a = b)) as [|Hab]; [done|exfalso].
  assert (Hsub : ({[a]} ∪ {[b]} : gset str) ⊆ X) by set_solver.
  apply subseteq_size in Hsub.
  rewrite size_union in Hsub by set_solver. rewrite !size_singleton in Hsub. lia.
Qed.

Lemma large_set_other_member X n :
  ¬ (size X < 2)%nat → n ∈ X → ∃ m, m ∈ X ∧ m ≠ n.
Proof.
  intros Hsize Hn.
  assert (Hpos : (0 < size (X ∖ {[n]}))%nat).
  { rewrite size_difference by set_solver. rewrite size_singleton. lia. }
  apply size_pos_elem_of in Hpos as [m Hm]. exists m. set_solver.
Qed.

Lemma lookup_clique X a :
  clique X !! a =
  if decide (a ∈ X ∧ ¬ (size X < 2)%nat) then Some (X ∖ {[a]}) else None.
Proof.
  unfold clique. destruct (decide (size X < 2)%nat) as [Hsize|Hsize].
  - rewrite lookup_empty. by rewrite decide_False by tauto.
  - case_decide as Ha.
    + apply lookup_set_to_map; [by intros ? ? _ _ [= ->]|]. exists a. tauto.
    + apply eq_None_not_Some. intros [nbrs Hl].
      apply lookup_set_to_map in Hl as (y & Hy & [= -> _]); [tauto|].
      by intros ? ? _ _ [= ->].
Qed.

Lemma has_edge_clique X a b : has_edge (clique X) a b ↔ a ∈ X ∧ b ∈ X ∧ a ≠ b.
Proof.
  unfold has_edge. rewrite lookup_clique. case_decide as Ha; simpl.
  - set_solver.
  - split; [set_solver|]. intros (HaX & HbX & Hab). destruct Ha. split; [done|].
    intros Hsize. by apply Hab, (small_set_one_member X).
Qed.

Lemma has_node_clique X n : has_node (clique X) n ↔ n ∈ X ∧ ∃ m, m ∈ X ∧ m ≠ n.
Proof.
  unfold has_node. rewrite lookup_clique. case_decide as Hn.
  - split; [|eauto]. intros _. destruct Hn as [Hn Hsize]. split; [done|].
    by apply large_set_other_member.
  - split; [by intros [? ?]|]. intros (HnX & m & HmX & Hmn). destruct Hn.
    split; [done|]. intros Hsize. by apply Hmn, (small_set_one_member X).
Qed.

Lemma has_edge_graph_union G1 G2 a b :
  has_edge (graph_union G1 G2) a b ↔ has_edge G1 a b ∨ has_edge G2 a b.
Proof.
  unfold has_edge, graph_union. rewrite lookup_union_with.
  destruct (G1 !! a), (G2 !! a); simpl; set_solver.
Qed.

Lemma has_node_graph_union G1 G2 n :
  has_node (graph_union G1 G2) n ↔ has_node G1 n ∨ has_node G2 n.
Proof.
  unfold has_node, graph_union. rewrite lookup_union_with.
  destruct (G1 !! n), (G2 !! n); simpl; split; eauto; intros [[? ?]|[? ?]]; done.
Qed.

Lemma has_edge_graph_unions (Gs : list Graph) a b :
  has_edge (graph_unions Gs) a b ↔ ∃ G, G ∈ Gs ∧ has_edge G a b.
Proof.
  induction Gs as [|G Gs IH]; simpl.
  - unfold has_edge. rewrite lookup_empty. set_solver.
  - rewrite has_edge_graph_union, IH. set_solver.
Qed.

Lemma has_node_graph_unions (Gs : list Graph) n :
  has_node (graph_unions Gs) n ↔ ∃ G, G ∈ Gs ∧ has_node G n.
Proof.
  induction Gs as [|G Gs IH]; simpl.
  - unfold has_node. rewrite lookup_empty. split; [by intros [? ?]|set_solver].
  - rewrite has_node_graph_union, IH. set_solver.
Qed.

Lemma graph_unions_singleton G : graph_unions [G] = G.
Proof.
  apply graph_eq.
  - intros n. rewrite has_node_graph_unions. set_solver.
  - intros a b. rewrite has_edge_graph_unions. set_solver.
Qed.

Lemma extracted_authors_of fs file_path X :
  extracted fs file_path X → authors_of fs file_path = X.
Proof.
  intros (raw & Hfile & Hparse)%extracted_iff. unfold authors_of.
  by rewrite Hfile, Hparse.
Qed.

Lemma authors_of_extracted fs file_path a :
  a ∈ authors_of fs file_path → extracted fs file_path (authors_of fs file_path).
Proof.
  unfold authors_of. intros Ha. apply extracted_iff.
  destruct (file_at fs file_path) as [| |raw]; [set_solver..|].
  exists raw. split; [done|].
  destruct (parse_authors_from_comments raw) as [[X|]|]; set_solver.
Qed.

(** What the loop over the files builds from the empty graph is the union of
    the cliques over the author sets of the files. *)
Lemma parse_files_union fs d file_list evs G :
  parse_files fs d file_list ∅ = (evs, Ok G) →
  (∀ a b, has_edge G a b ↔
          ∃ f, f ∈ file_list ∧ a ∈ authors_of fs (d ++ f) ∧
               b ∈ authors_of fs (d ++ f) ∧ a ≠ b) ∧
  (∀ n, has_node G n ↔
        ∃ f m, f ∈ file_list ∧ n ∈ authors_of fs (d ++ f) ∧
               m ∈ authors_of fs (d ++ f) ∧ m ≠ n) ∧
  G = graph_unions (map (λ f, clique (authors_of fs (d ++ f))) file_list).
Proof.
  intros Hrun.
  destruct (parse_files_spec _ _ _ _ _ _ Hrun) as (_ & _ & Hn & He).
  assert (Hempty : ∀ a b, ¬ has_edge (∅ : Graph) a b).
  { intros a b. unfold has_edge. rewrite lookup_empty. set_solver. }
  assert (Hnone : ∀ n, ¬ has_node (∅ : Graph) n).
  { intros n [? Hn0]. by rewrite lookup_empty in Hn0. }
  assert (Hedges : ∀ a b, has_edge G a b ↔
          ∃ f, f ∈ file_list ∧ a ∈ authors_of fs (d ++ f) ∧
               b ∈ authors_of fs (d ++ f) ∧ a ≠ b).
  { intros a b. rewrite He. split.
    - intros [?%Hempty|(f & X & Hf & Hex & Ha & Hb & Hab)]; [done|].
      exists f. by rewrite (extracted_authors_of _ _ _ Hex).
    - intros (f & Hf & Ha & Hb & Hab). right.
      exists f, (authors_of fs (d ++ f)). repeat (split; [done|]).
      split; [by eapply authors_of_extracted|done]. }
  assert (Hnodes : ∀ n, has_node G n ↔
        ∃ f m, f ∈ file_list ∧ n ∈ authors_of fs (d ++ f) ∧
               m ∈ authors_of fs (d ++ f) ∧ m ≠ n).
  { intros n. rewrite Hn. split.
    - intros [?%Hnone|(f & X & Hf & Hex & HnX & m & HmX & Hmn)]; [done|].
      exists f, m. by rewrite (extracted_authors_of _ _ _ Hex).
    - intros (f & m & Hf & HnX & HmX & Hmn). right.
      exists f, (authors_of fs (d ++ f)). split; [done|].
      split; [by eapply authors_of_extracted|]. eauto. }
  split; [done|]. split; [done|].
  apply graph_eq.
  - intros n. rewrite Hnodes, has_node_graph_unions. split.
    + intros (f & m & Hf & HnX & HmX & Hmn).
      exists (clique (authors_of fs (d ++ f))). split.
      * apply list_elem_of_fmap. eauto.
      * apply has_node_clique. eauto.
    + intros (Gf & (f & -> & Hf)%list_elem_of_fmap & (HnX & m & HmX & Hmn)%has_node_clique).
      eauto 10.
  - intros a b. rewrite Hedges, has_edge_graph_unions. split.
    + intros (f & Hf & Ha & Hb & Hab).
      exists (clique (authors_of fs (d ++ f))). split.
      * apply list_elem_of_fmap. eauto.
      * by apply has_edge_clique.
    + intros (Gf & (f & -> & Hf)%list_elem_of_fmap & (Ha & Hb & Hab)%has_edge_clique).
      eauto 10.
Qed.

End union_facts.

Section counting.
Implicit Types (G : Graph) (u v a b n : str) (X : gset str).
Local Open Scope nat_scope.

Lemma degree_empty n : degree n ∅ = 0.
Proof. unfold degree. rewrite size_empty, bool_decide_false by set_solver. done. Qed.

Lemma degree_sum_insert G n X :
  degree_sum (<[n:=X]> G) + degree n (default ∅ (G !! n)) = degree n X + degree_sum G.
Proof.
  unfold degree_sum.
  destruct (G !! n) as [old|] eqn:E; simpl.
  - rewrite (map_fold_delete_L _ _ n old G); [|intros; lia|done].
    rewrite <-(insert_delete_eq G n X).
    rewrite map_fold_insert_L; [lia|intros; lia|apply lookup_delete_eq].
  - rewrite degree_empty. rewrite map_fold_insert_L; [lia|intros; lia|done].
Qed.

Lemma degree_sum_add_node G n : degree_sum (add_node G n) = degree_sum G.
Proof.
  unfold add_node. destruct (G !! n) eqn:E; [done|].
  pose proof (degree_sum_insert G n ∅) as H. rewrite E in H. simpl in H.
  rewrite degree_empty in H. lia.
Qed.

Lemma degree_add_neighbour n m X :
  m ≠ n → m ∉ X → degree n ({[m]} ∪ X) = S (degree n X).
Proof.
  intros Hmn Hm. unfold degree. rewrite size_union by set_solver.
  rewrite size_singleton.
  destruct (decide (n ∈ X)).
  - rewrite !bool_decide_true by set_solver. lia.
  - rewrite !bool_decide_false by set_solver. lia.
Qed.

Lemma degree_sum_add_edge G u v :
  u ≠ v → ¬ has_edge G u v → ¬ has_edge G v u →
  degree_sum (add_edge G u v) = degree_sum G + 2.
Proof.
  unfold has_edge, add_edge. intros Huv Hu Hv.
  set (G2 := add_node (add_node G u) v).
  assert (HG2u : default ∅ (G2 !! u) = default ∅ (G !! u)).
  { unfold G2. rewrite lookup_add_node, decide_False by done.
    rewrite lookup_add_node, decide_True by done. done. }
  assert (HG2v : default ∅ (G2 !! v) = default ∅ (G !! v)).
  { unfold G2. rewrite lookup_add_node, decide_True by done. simpl.
    rewrite lookup_add_node, decide_False by done. done. }
  assert (HG2 : degree_sum G2 = degree_sum G).
  { unfold G2. by rewrite !degree_sum_add_node. }
  set (G3 := <[u:={[v]} ∪ default ∅ (G2 !! u)]> G2).
  pose proof (degree_sum_insert G2 u ({[v]} ∪ default ∅ (G2 !! u))) as H3.
  fold G3 in H3.
  rewrite HG2u in H3. rewrite degree_add_neighbour in H3 by done.
  assert (HG3v : default ∅ (G3 !! v) = default ∅ (G !! v)).
  { unfold G3. rewrite lookup_insert_ne by done. done. }
  pose proof (degree_sum_insert G3 v ({[u]} ∪ default ∅ (G3 !! v))) as H4.
  rewrite HG3v in H4. rewrite degree_add_neighbour in H4 by done.
  rewrite HG3v. lia.
Qed.

Lemma degree_sum_add_edges_from l : ∀ G G',
  add_edges_from G l = Ok G' →
  Forall (λ e, length e = 2) l →
  NoDup (l ++ map (@rev str) l) →
  (∀ a b, [a; b] ∈ l → ¬ has_edge G a b ∧ ¬ has_edge G b a) →
  degree_sum G' = degree_sum G + 2 * length l.
Proof.
  induction l as [|e l IH]; intros G G' Hrun Hlen Hnd Hfresh.
  - simpl in *. injection Hrun as <-. lia.
  - apply Forall_cons in Hlen as [He Hlen].
    destruct e as [|u [|v [|? ?]]]; try done. simpl in Hrun.
    simpl in Hnd. apply NoDup_cons in Hnd as [Hhd Hnd].
    assert (Huv : u ≠ v).
    { intros ->. apply Hhd. apply elem_of_app. right. simpl. left. }
    destruct (Hfresh u v) as [Hu Hv]; [left|].
    rewrite (IH _ _ Hrun Hlen).
    + rewrite degree_sum_add_edge by done. simpl. lia.
    + apply NoDup_app in Hnd as (Hl & Hdisj & Hr).
      apply NoDup_app. split; [done|]. split.
      * intros x Hx Hx'. apply (Hdisj x Hx). by right.
      * by apply NoDup_cons in Hr as [_ Hr].
    + intros a b Hab. rewrite !has_edge_add_edge.
      destruct (Hfresh a b) as [Ha Hb]; [by right|].
      split; intros [?|[[-> ->]|[-> ->]]]; try done.
      * apply Hhd. apply elem_of_app. by left.
      * apply Hhd. apply elem_of_app. right. simpl. right.
        apply list_elem_of_fmap. exists [v; u]. done.
      * apply Hhd. apply elem_of_app. right. simpl. right.
        apply list_elem_of_fmap. exists [v; u]. done.
      * apply Hhd. apply elem_of_app. by left.
Qed.

Lemma combinations_2_unordered (l : list str) :
  NoDup l → NoDup (combinations l 2 ++ map (@rev str) (combinations l 2)).
Proof.
  intros Hl. apply NoDup_app. split; [by apply combinations_2_NoDup|]. split.
  - intros e He (e' & -> & He')%list_elem_of_fmap.
    pose proof (combinations_tuple_length _ _ _ He') as Hlen.
    destruct e' as [|a [|b [|? ?]]]; try done. simpl in He.
    by destruct (combinations_2_distinct _ _ _ Hl He').
  - apply NoDup_fmap_2; [|by apply combinations_2_NoDup].
    intros x y Hxy. by rewrite <-(rev_involutive x), Hxy, rev_involutive.
Qed.

Lemma choose_2 k : 2 * choose k 2 = k * (k - 1).
Proof.
  induction k as [|k IH]; [done|].
  assert (H1 : ∀ j : nat, choose j 1 = j).
  { clear. induction j as [|j IHj]; [done|]. simpl in *. destruct j; simpl in *; lia. }
  change (choose (S k) 2) with (choose k 1 + choose k 2). rewrite H1.
  destruct k; simpl in *; lia.
Qed.

End counting.

Section regex_facts.
Implicit Types (s t m before after rest : str) (c : char).

Lemma startswith_app s prefix : startswith s prefix = true ↔ ∃ t, s = prefix ++ t.
Proof.
  revert s. induction prefix as [|p prefix IH]; intros s; simpl.
  - destruct s; (split; [intros _; eexists; reflexivity|done]).
  - destruct s as [|c s]; simpl; [split; [done|by intros [? ?]]|].
    rewrite andb_true_iff, N.eqb_eq, IH. split.
    + intros [-> [t ->]]. eauto.
    + intros [t [= -> ->]]. eauto.
Qed.

Lemma lazy_repeat_sound end_ok rest : ∀ need t,
  lazy_repeat end_ok need rest = Some t →
  ∃ after, rest = t ++ after ∧ (need ≤ length t)%nat ∧
           Forall (λ x, name_char x = true) t ∧ end_ok after = true.
Proof.
  induction rest as [|c rest IH]; intros need t; simpl.
  - destruct need; [|done]. destruct (end_ok []) eqn:E; [|done].
    intros [= <-]. exists []. repeat split; auto.
  - destruct need as [|k].
    + destruct (end_ok (c :: rest)) eqn:E.
      { intros [= <-]. exists (c :: rest). repeat split; auto. }
      destruct (name_char c) eqn:Hc; [|done].
      destruct (lazy_repeat end_ok 0 rest) as [t'|] eqn:Hrec; [|done].
      intros [= <-]. destruct (IH _ _ Hrec) as (after & -> & _ & Hall & Hend).
      exists after. repeat split; simpl; auto; lia.
    + destruct (name_char c) eqn:Hc; [|done].
      destruct (lazy_repeat end_ok k rest) as [t'|] eqn:Hrec; [|done].
      intros [= <-]. destruct (IH _ _ Hrec) as (after & -> & Hlen & Hall & Hend).
      exists after. repeat split; simpl; auto; lia.
Qed.

Lemma eq_upper_ahead_app rest after :
  (2 ≤ length rest)%nat → eq_upper_ahead (rest ++ after) = eq_upper_ahead rest.
Proof. destruct rest as [|? [|? ?]]; simpl; try lia. done. Qed.

Lemma common_pattern_sound end_ok rest m :
  common_pattern end_ok rest = Some m →
  ∃ after, rest = m ++ after ∧ token m ∧ end_ok after = true.
Proof.
  unfold common_pattern. destruct rest as [|c rest]; [done|].
  destruct (is_upper c) eqn:Hc; [|done].
  destruct (eq_upper_ahead rest) eqn:Heq; [done|]. simpl.
  destruct (lazy_repeat end_ok 2 rest) as [t|] eqn:Hrec; [|done].
  intros [= <-]. destruct (lazy_repeat_sound _ _ _ _ Hrec) as (after & -> & Hlen & Hall & Hend).
  exists after. split; [done|]. split; [|done].
  exists c, t. rewrite eq_upper_ahead_app in Heq by done. done.
Qed.

Lemma lookbehind_endswith ctx before_rev :
  lookbehind ctx before_rev = endswith (rev before_rev) ctx.
Proof. unfold lookbehind, endswith. by rewrite rev_involutive. Qed.

Lemma first_alternative_sound alts before_rev rest m :
  first_alternative alts before_rev rest = Some m →
  ∃ start end_ok, (start, end_ok) ∈ alts ∧ start before_rev = true ∧
                  common_pattern end_ok rest = Some m.
Proof.
  induction alts as [|[start end_ok] alts IH]; [done|]. simpl.
  destruct (start before_rev) eqn:Hs.
  - destruct (common_pattern end_ok rest) as [m'|] eqn:Hm.
    + intros [= <-]. exists start, end_ok. split; [left|done].
    + intros (s' & e' & ? & ?)%IH. exists s', e'. split; [by right|done].
  - intros (s' & e' & ? & ?)%IH. exists s', e'. split; [by right|done].
Qed.

Lemma pattern_sound before_rev rest m :
  pattern before_rev rest = Some m →
  ∃ after, rest = m ++ after ∧ token m ∧ in_context (rev before_rev) after.
Proof.
  intros (start & end_ok & Hin & Hstart & Hm)%first_alternative_sound.
  apply common_pattern_sound in Hm as (after & -> & Htok & Hend).
  exists after. split; [done|]. split; [done|].
  unfold pattern_list in Hin. unfold in_context.
  repeat (apply elem_of_cons in Hin as [[= -> ->]|Hin]);
    [..|by apply elem_of_nil in Hin];
    rewrite lookbehind_endswith in Hstart; unfold lookahead in Hend.
  - auto.
  - auto.
  - apply orb_true_iff in Hend. auto.
  - auto 6.
Qed.

Lemma findall_from_sound rest : ∀ before_rev skip,
  Forall (λ m, ∃ before after,
            rev before_rev ++ rest = before ++ m ++ after ∧
            token m ∧ in_context before after)
         (findall_from before_rev rest skip).
Proof.
  induction rest as [|c rest IH]; intros before_rev skip; simpl; [constructor|].
  assert (Hshift : ∀ k, Forall (λ m, ∃ before after,
            rev before_rev ++ c :: rest = before ++ m ++ after ∧
            token m ∧ in_context before after)
         (findall_from (c :: before_rev) rest k)).
  { intros k. eapply Forall_impl; [apply IH|]. simpl.
    intros m (b & a & Heq & ?). exists b, a. split; [|done].
    by rewrite <-Heq, <-app_assoc. }
  destruct skip as [|k]; [|apply Hshift].
  destruct (pattern before_rev (c :: rest)) as [m|] eqn:Hm; [|apply Hshift].
  constructor; [|apply Hshift].
  apply pattern_sound in Hm as (after & -> & ? & ?).
  exists (rev before_rev), after. done.
Qed.

Lemma token_length m : token m → (3 ≤ length m)%nat.
Proof. intros (c & rest & -> & _ & _ & Hlen & _). simpl. lia. Qed.

End regex_facts.

Section regex_complete.
Implicit Types (s t m before after rest : str) (c : char).

Lemma lazy_repeat_complete end_ok after : ∀ t need,
  Forall (λ x, name_char x = true) t → (need ≤ length t)%nat →
  end_ok after = true →
  (∀ p r, t = p ++ r → (need ≤ length p)%nat → r ≠ [] → end_ok (r ++ after) = false) →
  lazy_repeat end_ok need (t ++ after) = Some t.
Proof.
  induction t as [|c t IH]; intros need Hall Hlen Hend Hearly.
  - simpl in Hlen. assert (need = 0%nat) as -> by lia. simpl.
    destruct after; simpl; by rewrite Hend.
  - apply Forall_cons in Hall as [Hc Hall]. simpl.
    destruct need as [|k].
    + pose proof (Hearly [] (c :: t) eq_refl ltac:(simpl; lia) ltac:(done)) as H0.
      simpl in H0. rewrite H0, Hc.
      rewrite IH; auto with lia.
      intros p r -> _ Hr. apply (Hearly (c :: p) r); auto with lia.
    + rewrite Hc. simpl in Hlen. rewrite IH; auto with lia.
      intros p r -> Hp Hr. apply (Hearly (c :: p) r); simpl; auto with lia.
Qed.

Lemma common_pattern_complete end_ok tok after :
  token tok → end_ok after = true →
  (∀ p r, tok = p ++ r → (3 ≤ length p)%nat → r ≠ [] → end_ok (r ++ after) = false) →
  common_pattern end_ok (tok ++ after) = Some tok.
Proof.
  intros (c & rest & -> & Hc & Heq & Hlen & Hall) Hend Hearly.
  simpl. rewrite Hc, eq_upper_ahead_app, Heq by done. simpl.
  rewrite lazy_repeat_complete; auto.
  intros p r -> Hp Hr. apply (Hearly (c :: p) r); simpl; auto with lia.
Qed.

Lemma pattern_not_upper before_rev c rest :
  is_upper c = false → pattern before_rev (c :: rest) = None.
Proof.
  intros Hc. unfold pattern, pattern_list, first_alternative, common_pattern.
  rewrite Hc. simpl. by repeat destruct (lookbehind _ _).
Qed.

Lemma findall_from_pass pre : ∀ before_rev rest,
  Forall (λ c, is_upper c = false) pre →
  findall_from before_rev (pre ++ rest) 0 = findall_from (rev pre ++ before_rev) rest 0.
Proof.
  induction pre as [|c pre IH]; intros before_rev rest Hall; [done|].
  apply Forall_cons in Hall as [Hc Hall]. simpl.
  rewrite pattern_not_upper by done. rewrite IH by done.
  by rewrite <-app_assoc.
Qed.

Lemma findall_from_skip m : ∀ before_rev after,
  findall_from before_rev (m ++ after) (length m) =
  findall_from (rev m ++ before_rev) after 0.
Proof.
  induction m as [|c m IH]; intros before_rev after; [done|].
  simpl. rewrite IH. by rewrite <-app_assoc.
Qed.

Lemma findall_from_match before_rev m after :
  pattern before_rev (m ++ after) = Some m →
  findall_from before_rev (m ++ after) 0 =
  m :: findall_from (rev m ++ before_rev) after 0.
Proof.
  intros Hm. destruct m as [|c m].
  { apply pattern_sound in Hm as (? & _ & ?%token_length & _). simpl in *. lia. }
  change ((c :: m) ++ after) with (c :: (m ++ after)) in *.
  cbn [findall_from]. rewrite Hm. f_equal.
  replace (length (c :: m) - 1)%nat with (length m) by (simpl; lia).
  rewrite findall_from_skip. simpl. by rewrite <-app_assoc.
Qed.

Lemma findall_delimited opening tok closing :
  Forall (λ c, is_upper c = false) opening →
  Forall (λ c, is_upper c = false) closing →
  pattern (rev opening) (tok ++ closing) = Some tok →
  findall (opening ++ tok ++ closing) = [tok].
Proof.
  intros Ho Hc Hm. unfold findall.
  rewrite findall_from_pass by done. rewrite app_nil_r.
  rewrite findall_from_match by done. f_equal.
  rewrite <-(app_nil_r closing). rewrite findall_from_pass by done.
  done.
Qed.

Lemma name_char_neq x n : name_char n = false → name_char x = true → (x =? n) = false.
Proof. intros Hn Hx. apply N.eqb_neq. intros ->. congruence. Qed.

Lemma first_alternative_cons start end_ok alts before_rev rest :
  first_alternative ((start, end_ok) :: alts) before_rev rest =
  if start before_rev
  then match common_pattern end_ok rest with
       | Some m => Some m
       | None => first_alternative alts before_rev rest
       end
  else first_alternative alts before_rev rest.
Proof. simpl. by destruct (start before_rev). Qed.

Lemma token_suffix tok p r :
  token tok → tok = p ++ r → (1 ≤ length p)%nat →
  Forall (λ x, name_char x = true) r.
Proof.
  intros (c & rest & -> & _ & _ & _ & Hall) Heq Hp.
  destruct p as [|c' p]; [simpl in Hp; lia|]. injection Heq as -> ->.
  by apply Forall_app in Hall as [_ ?].
Qed.

Lemma token_alone_is_found tok opening closing :
  token tok → (opening, closing) ∈ delimiters →
  length tok = 3%nat ∨ 44 ∉ tok →
  findall (opening ++ tok ++ closing) = [tok].
Proof.
  intros Htok Hin Hcond.
  assert (Hearly : ∀ p r, tok = p ++ r → (3 ≤ length p)%nat → r ≠ [] →
            ∃ x r', r = x :: r' ∧ name_char x = true ∧ x ≠ 44 ∧
                    Forall (λ y, name_char y = true) r').
  { intros p r Heq Hp Hr. destruct r as [|x r']; [done|]. exists x, r'.
    pose proof (token_suffix tok p (x :: r') Htok Heq ltac:(lia)) as Hall.
    apply Forall_cons in Hall as [Hx Hall].
    destruct Hcond as [Hlen|Hcomma].
    - rewrite Heq, length_app in Hlen. simpl in Hlen. lia.
    - repeat split; try done. intros ->. apply Hcomma. rewrite Heq. set_solver. }
  unfold delimiters in Hin.
  repeat (apply elem_of_cons in Hin as [[= -> ->]|Hin]); [..|by apply elem_of_nil in Hin];
    py_norm;
    (apply findall_delimited; [by repeat constructor..|]);
    unfold pattern, pattern_list; py_norm; rewrite !first_alternative_cons;
    repeat match goal with
    | |- context [lookbehind ?a ?b] =>
        let v := eval vm_compute in (lookbehind a b) in
        change (lookbehind a b) with v
    end; cbv iota.
  - rewrite common_pattern_complete; [done..|].
    intros p r Heq Hp Hr. destruct (Hearly p r Heq Hp Hr) as (x & r' & -> & Hx & _ & _).
    unfold lookahead. simpl. by rewrite (name_char_neq x 95).
  - rewrite common_pattern_complete; [done..|].
    intros p r Heq Hp Hr. destruct (Hearly p r Heq Hp Hr) as (x & r' & -> & Hx & _ & _).
    unfold lookahead. simpl. by rewrite (name_char_neq x 93).
  - rewrite common_pattern_complete; [done..|].
    intros p r Heq Hp Hr. destruct (Hearly p r Heq Hp Hr) as (x & r' & -> & Hx & Hx' & Hall).
    unfold lookahead. simpl. apply N.eqb_neq in Hx'. rewrite Hx'. simpl.
    destruct r' as [|y r']; simpl; [by rewrite andb_false_r|].
    apply Forall_cons in Hall as [Hy _].
    by rewrite (name_char_neq y 40), andb_false_r.
  - rewrite common_pattern_complete; [done..|].
    intros p r Heq Hp Hr. destruct (Hearly p r Heq Hp Hr) as (x & r' & -> & Hx & Hx' & Hall).
    unfold lookahead. simpl. apply N.eqb_neq in Hx'. rewrite Hx'. simpl.
    destruct r' as [|y r']; simpl; [by rewrite andb_false_r|].
    apply Forall_cons in Hall as [Hy _].
    by rewrite (name_char_neq y 40), andb_false_r.
  - rewrite common_pattern_complete; [done..|].
    intros p r Heq Hp Hr. destruct (Hearly p r Heq Hp Hr) as (x & r' & -> & Hx & Hx' & Hall).
    unfold lookahead. simpl. apply N.eqb_neq in Hx'. by rewrite Hx'.
Qed.

End regex_complete.

Section regex_exact.
Implicit Types (s t m before after rest : str) (c : char).

Lemma lazy_repeat_minimal end_ok rest : ∀ need t,
  lazy_repeat end_ok need rest = Some t →
  ∀ p r, t = p ++ r → (need ≤ length p)%nat → r ≠ [] →
         end_ok (r ++ drop (length t) rest) = false.
Proof.
  induction rest as [|c rest IH]; intros need t; cbn [lazy_repeat].
  - destruct need; [|done]. destruct (end_ok []); [|done].
    intros [= <-] p r Hpr. by destruct p, r.
  - destruct need as [|k].
    + destruct (end_ok (c :: rest)) eqn:E.
      { intros [= <-] p r Hpr. by destruct p, r. }
      destruct (name_char c); [|done].
      destruct (lazy_repeat end_ok 0 rest) as [t'|] eqn:Hrec; [|done].
      intros [= <-] p r Hpr _ Hr. simpl.
      apply lazy_repeat_sound in Hrec as Hsound.
      destruct Hsound as (after & Hrest & _).
      destruct p as [|c' p].
      * simpl in Hpr. subst r. simpl.
        rewrite Hrest, drop_app_length, <-Hrest. done.
      * injection Hpr as <- ->. by apply (IH _ _ Hrec p r); [|lia|].
    + destruct (name_char c); [|done].
      destruct (lazy_repeat end_ok k rest) as [t'|] eqn:Hrec; [|done].
      intros [= <-] p r Hpr Hp Hr. simpl.
      destruct p as [|c' p]; [simpl in Hp; lia|].
      injection Hpr as <- ->. apply (IH _ _ Hrec p r); [done|simpl in Hp; lia|done].
Qed.

Lemma common_pattern_exact end_ok rest m :
  common_pattern end_ok rest = Some m ↔
  ∃ after, rest = m ++ after ∧ token m ∧ end_ok after = true ∧
    ∀ p r, m = p ++ r → (3 ≤ length p)%nat → r ≠ [] → end_ok (r ++ after) = false.
Proof.
  split.
  - intros Hm. destruct (common_pattern_sound _ _ _ Hm) as (after & -> & Htok & Hend).
    exists after. split; [done|]. split; [done|]. split; [done|].
    intros p r Hpr Hp Hr.
    unfold common_pattern in Hm. destruct m as [|c m]; [by destruct Htok as (?&?&?&_)|].
    simpl in Hm. destruct (is_upper c && negb (eq_upper_ahead (m ++ after))); [|done].
    destruct (lazy_repeat end_ok 2 (m ++ after)) as [t|] eqn:Hrec; [|done].
    simpl in Hm. injection Hm as ->.
    destruct p as [|c' p]; [simpl in Hp; lia|]. injection Hpr as <- ->.
    pose proof (lazy_repeat_minimal _ _ _ _ Hrec p r eq_refl ltac:(simpl in Hp; lia) Hr) as Hmin.
    by rewrite drop_app_length in Hmin.
  - intros (after & -> & Htok & Hend & Hmin). by apply common_pattern_complete.
Qed.

(** The four lookbehinds exclude one another: the text before a position
    ends with an underscore, a square bracket, a space or a parenthesis. *)
Lemma pattern_unfold before_rev rest :
  pattern before_rev rest =
  if lookbehind (py "_") before_rev then common_pattern (lookahead (py "_")) rest
  else if lookbehind (py "[") before_rev then common_pattern (lookahead (py "]")) rest
  else if lookbehind (py "- ") before_rev
       then common_pattern (λ r, lookahead (py " (") r || lookahead (py ", ") r) rest
  else if lookbehind (py "(") before_rev then common_pattern (lookahead (py ",")) rest
  else None.
Proof.
  unfold pattern, pattern_list. rewrite !first_alternative_cons.
  unfold lookbehind. py_norm.
  destruct before_rev as [|c [|c' l]]; cbn [rev app startswith]; try done.
  - destruct (N.eqb_spec c 95) as [->|]; cbn [andb];
      [by destruct (common_pattern _ rest)|].
    destruct (N.eqb_spec c 91) as [->|]; cbn [andb];
      [by destruct (common_pattern _ rest)|].
    destruct (N.eqb_spec c 32) as [->|]; cbn [andb]; [done|].
    destruct (N.eqb_spec c 40) as [->|]; cbn [andb];
      first [done | by destruct (common_pattern _ rest)].
  - destruct (N.eqb_spec c 95) as [->|]; cbn [andb];
      [by destruct (common_pattern _ rest)|].
    destruct (N.eqb_spec c 91) as [->|]; cbn [andb];
      [by destruct (common_pattern _ rest)|].
    destruct (N.eqb_spec c 32) as [->|]; cbn [andb].
    { destruct (c' =? 45); cbn [andb];
        first [done | by destruct (common_pattern _ rest)]. }
    destruct (N.eqb_spec c 40) as [->|]; cbn [andb];
      first [done | by destruct (common_pattern _ rest)].
Qed.

Lemma in_context_unfold before_rev after :
  in_context (rev before_rev) after ↔
  (if lookbehind (py "_") before_rev then lookahead (py "_") after
   else if lookbehind (py "[") before_rev then lookahead (py "]") after
   else if lookbehind (py "- ") before_rev
        then lookahead (py " (") after || lookahead (py ", ") after
   else if lookbehind (py "(") before_rev then lookahead (py ",") after
   else false) = true.
Proof.
  unfold in_context. rewrite <-!lookbehind_endswith. unfold lookahead.
  rewrite <-orb_true_iff.
  unfold lookbehind. py_norm.
  destruct before_rev as [|c [|c' l]]; cbn [rev app startswith].
  - naive_solver.
  - destruct (N.eqb_spec c 95) as [->|]; cbn [andb]; [naive_solver|].
    destruct (N.eqb_spec c 91) as [->|]; cbn [andb]; [naive_solver|].
    destruct (N.eqb_spec c 32) as [->|]; cbn [andb]; [naive_solver|].
    destruct (N.eqb_spec c 40) as [->|]; cbn [andb]; naive_solver.
  - destruct (N.eqb_spec c 95) as [->|]; cbn [andb]; [naive_solver|].
    destruct (N.eqb_spec c 91) as [->|]; cbn [andb]; [naive_solver|].
    destruct (N.eqb_spec c 32) as [->|]; cbn [andb].
    { destruct (c' =? 45); cbn [andb]; naive_solver. }
    destruct (N.eqb_spec c 40) as [->|]; cbn [andb]; naive_solver.
Qed.

(** At a position the pattern matches exactly the shortest token that
    starts there and stands in one of the contexts. *)
Lemma pattern_exact before_rev rest m :
  pattern before_rev rest = Some m ↔
  ∃ after, rest = m ++ after ∧ token m ∧ in_context (rev before_rev) after ∧
    ∀ p r, m = p ++ r → (3 ≤ length p)%nat → r ≠ [] →
           ¬ in_context (rev before_rev) (r ++ after).
Proof.
  rewrite pattern_unfold. setoid_rewrite in_context_unfold.
  repeat match goal with
  | |- context [if lookbehind ?ctx before_rev then _ else _] =>
      destruct (lookbehind ctx before_rev)
  end;
  try (rewrite common_pattern_exact; split;
       intros (after & ? & ? & ? & Hmin); exists after; repeat (split; [done|]);
       intros p r Hpr Hp Hr; specialize (Hmin p r Hpr Hp Hr);
       [by rewrite Hmin | by apply not_true_is_false]).
  split; [done|]. by intros (? & _ & _ & ? & _).
Qed.

End regex_exact.

Section scan_facts.
Implicit Types (s t m before after rest skipped : str) (c : char).

Lemma match_at_pattern before rest m :
  match_at before rest m ↔ pattern (rev before) rest = Some m.
Proof. unfold match_at. rewrite pattern_exact. by rewrite rev_involutive. Qed.

Lemma match_at_cons before rest m : match_at before rest m → ∃ c rest', rest = c :: rest'.
Proof.
  intros (after & -> & Htok & _). apply token_length in Htok.
  destruct m as [|c m]; [simpl in Htok; lia|]. by exists c, (m ++ after).
Qed.

(** Positions without a match are passed over. *)
Lemma findall_from_no_match skipped : ∀ before rest,
  (∀ s1 s2 m, skipped = s1 ++ s2 → s2 ≠ [] →
              ¬ match_at (before ++ s1) (s2 ++ rest) m) →
  findall_from (rev before) (skipped ++ rest) 0 =
  findall_from (rev (before ++ skipped)) rest 0.
Proof.
  induction skipped as [|c skipped IH]; intros before rest Hno.
  - by rewrite app_nil_r.
  - cbn [app findall_from].
    destruct (pattern (rev before) (c :: skipped ++ rest)) as [m|] eqn:Hm.
    { apply match_at_pattern in Hm. destruct (Hno [] (c :: skipped) m); try done.
      by rewrite app_nil_r. }
    replace (c :: rev before) with (rev (before ++ [c])) by (by rewrite rev_app_distr).
    rewrite IH.
    + by rewrite <-app_assoc.
    + intros s1 s2 m -> Hs2 Hmatch. apply (Hno (c :: s1) s2 m); try done.
      by rewrite <-app_assoc in Hmatch.
Qed.

Lemma findall_from_nothing rest : ∀ before,
  (∀ skipped rest' m, rest = skipped ++ rest' → ¬ match_at (before ++ skipped) rest' m) →
  findall_from (rev before) rest 0 = [].
Proof.
  intros before Hno.
  rewrite <-(app_nil_r rest). rewrite findall_from_no_match; [done|].
  intros s1 s2 m -> _. rewrite app_nil_r. by apply Hno.
Qed.

(** The matches of a scan are what [findall_from] returns. *)
Lemma scan_findall_from before rest ms :
  scan before rest ms → findall_from (rev before) rest 0 = ms.
Proof.
  induction 1 as [before rest Hno|before skipped m after ms Hno Hm _ IH].
  - by apply findall_from_nothing.
  - rewrite findall_from_no_match by done.
    apply match_at_pattern in Hm.
    rewrite findall_from_match by done. f_equal.
    rewrite <-IH. by rewrite !rev_app_distr, app_assoc.
Qed.

(** A scan whose first position has no match is a scan from the next
    position. *)
Lemma scan_shift before c rest ms :
  (∀ m, ¬ match_at before (c :: rest) m) →
  scan (before ++ [c]) rest ms → scan before (c :: rest) ms.
Proof.
  intros Hc Hscan. inversion Hscan as [? ? Hno|? skipped m after ms' Hno Hm Hrest]; subst.
  - apply scan_end. intros skipped rest' m Heq.
    destruct skipped as [|c' skipped].
    + simpl in Heq. subst rest'. rewrite app_nil_r. apply Hc.
    + injection Heq as <- ->. specialize (Hno skipped rest' m eq_refl).
      by rewrite <-app_assoc in Hno.
  - change (c :: skipped ++ m ++ after) with ((c :: skipped) ++ m ++ after).
    apply scan_match.
    + intros s1 s2 m' Heq Hs2. destruct s1 as [|c' s1].
      * simpl in Heq. subst s2. rewrite app_nil_r. apply Hc.
      * injection Heq as <- ->. specialize (Hno s1 s2 m' eq_refl Hs2).
        by rewrite <-app_assoc in Hno.
    + by rewrite <-app_assoc in Hm.
    + by rewrite <-app_assoc in Hrest.
Qed.

(** Every text has a scan, the one that [findall_from] computes. *)
Lemma findall_from_scan n : ∀ rest before,
  (length rest ≤ n)%nat → scan before rest (findall_from (rev before) rest 0).
Proof.
  induction n as [|n IH]; intros rest before Hlen.
  - destruct rest; [|simpl in Hlen; lia]. apply scan_end.
    intros skipped rest' m Heq Hm. apply match_at_cons in Hm as (c & r & ->).
    by destruct skipped.
  - destruct rest as [|c rest].
    { apply scan_end. intros skipped rest' m Heq Hm.
      apply match_at_cons in Hm as (c & r & ->). by destruct skipped. }
    destruct (pattern (rev before) (c :: rest)) as [m|] eqn:Hm.
    + pose proof Hm as Hmatch. apply match_at_pattern in Hmatch.
      destruct Hmatch as (after & Heq & Htok & Hrest).
      rewrite Heq in Hm |- *. rewrite findall_from_match by done.
      replace (rev m ++ rev before) with (rev (before ++ [] ++ m))
        by (simpl; by rewrite rev_app_distr).
      change (m ++ after) with ([] ++ m ++ after).
      apply scan_match.
      * intros s1 s2 m' Heq' Hs2. by destruct s1, s2.
      * rewrite app_nil_r. apply match_at_pattern. exact Hm.
      * apply IH. apply token_length in Htok.
        apply (f_equal length) in Heq. rewrite length_app in Heq. simpl in *. lia.
    + apply scan_shift.
      * intros m Hmatch. apply match_at_pattern in Hmatch. congruence.
      * cbn [findall_from]. rewrite Hm.
        replace (c :: rev before) with (rev (before ++ [c])) by (by rewrite rev_app_distr).
        apply IH. simpl in Hlen. lia.
Qed.

Lemma findall_scan text ms : findall text = ms ↔ scan [] text ms.
Proof.
  split.
  - intros <-. apply (findall_from_scan (length text) text []). done.
  - apply scan_findall_from.
Qed.

(** Matches that start in [pre] and end in it do not disturb what follows:
    the scan of [pre ++ rest] ends with the scan of [rest]. *)
Lemma findall_from_prefix n : ∀ pre before rest,
  (length pre ≤ n)%nat →
  (∀ s1 s2 m', pre = s1 ++ s2 → s2 ≠ [] → match_at (before ++ s1) (s2 ++ rest) m' →
               (length m' ≤ length s2)%nat) →
  ∃ ms, findall_from (rev before) (pre ++ rest) 0 =
        ms ++ findall_from (rev (before ++ pre)) rest 0.
Proof.
  induction n as [|n IH]; intros pre before rest Hlen Hin.
  { destruct pre; [|simpl in Hlen; lia]. exists []. by rewrite app_nil_r. }
  destruct pre as [|c pre]; [exists []; by rewrite app_nil_r|].
  destruct (pattern (rev before) ((c :: pre) ++ rest)) as [m|] eqn:Hm.
  - pose proof Hm as Hmatch. apply match_at_pattern in Hmatch.
    pose proof (Hin [] (c :: pre) m eq_refl ltac:(done)) as Hshort.
    rewrite app_nil_r in Hshort. specialize (Hshort Hmatch).
    destruct Hmatch as (after & Heq & Htok & _).
    apply token_length in Htok.
    apply app_eq_inv in Heq as [(k & Hpre & Hafter)|(k & Hk & Hrest)].
    + rewrite Hpre, <-app_assoc in Hm |- *.
      rewrite findall_from_match by done.
      destruct (IH k (before ++ m) rest) as [ms Hms].
      * apply (f_equal length) in Hpre. rewrite length_app in Hpre. simpl in *. lia.
      * intros s1 s2 m' -> Hs2 Hmatch. apply (Hin (m ++ s1) s2 m'); try done.
        -- by rewrite Hpre, <-app_assoc.
        -- by rewrite app_assoc.
      * exists (m :: ms). rewrite rev_app_distr in Hms. rewrite Hms.
        by rewrite !app_assoc.
    + assert (k = []) as ->.
      { apply (f_equal length) in Hk. rewrite length_app in Hk.
        destruct k; [done|]. simpl in *. lia. }
      rewrite app_nil_r in Hk. subst m. simpl in Hrest. subst after.
      rewrite findall_from_match by done.
      exists [c :: pre]. by rewrite rev_app_distr.
  - cbn [app findall_from]. cbn [app] in Hm. rewrite Hm.
    destruct (IH pre (before ++ [c]) rest) as [ms Hms].
    + simpl in Hlen. lia.
    + intros s1 s2 m' -> Hs2 Hmatch. apply (Hin (c :: s1) s2 m'); try done.
      by rewrite <-app_assoc in Hmatch.
    + exists ms. rewrite rev_app_distr in Hms. simpl in Hms. rewrite Hms.
      by rewrite <-app_assoc.
Qed.

(** A match at a position that no earlier match runs over is found. *)
Lemma match_in_text_is_found pre m post :
  match_at pre (m ++ post) m →
  (∀ s1 s2 m', pre = s1 ++ s2 → s2 ≠ [] → match_at s1 (s2 ++ m ++ post) m' →
               (length m' ≤ length s2)%nat) →
  m ∈ findall (pre ++ m ++ post).
Proof.
  intros Hm Hin. unfold findall.
  destruct (findall_from_prefix (length pre) pre [] (m ++ post)) as [ms Hms]; [done|done|].
  change (rev []) with (@nil char) in Hms. rewrite Hms. simpl.
  apply match_at_pattern in Hm. rewrite findall_from_match by done.
  apply elem_of_app. right. apply elem_of_cons. by left.
Qed.

Lemma upper_is_name_char c : is_upper c = true → name_char c = true.
Proof.
  unfold is_upper, name_char, is_digit, excluded_punct. py_norm.
  intros [H1 H2]%andb_true_iff. apply N.leb_le in H1, H2.
  cbn [existsb app].
  repeat match goal with
  | |- context [c =? ?k] => replace (c =? k) with false by (symmetry; apply N.eqb_neq; lia)
  end.
  replace (c <=? 57) with false by (symmetry; apply N.leb_gt; lia).
  by rewrite andb_false_r.
Qed.

Lemma token_chars m : token m → Forall (λ c, name_char c = true) m.
Proof.
  intros (c & rest & -> & Hc & _ & _ & Hall). constructor; [|done].
  by apply upper_is_name_char.
Qed.

Lemma endswith_app (s suffix : str) : endswith (s ++ suffix) suffix = true.
Proof. unfold endswith. rewrite rev_app_distr. apply startswith_app. eauto. Qed.

(** Between its delimiters a token that no closing delimiter can cut short
    is the match at its position, whatever the text around. *)
Lemma token_in_context_is_match pre tok post opening closing :
  token tok → (opening, closing) ∈ delimiters →
  length tok = 3%nat ∨ 44 ∉ tok →
  match_at (pre ++ opening) (tok ++ closing ++ post) tok.
Proof.
  intros Htok Hin Hcond.
  assert (Hearly : ∀ p r, tok = p ++ r → (3 ≤ length p)%nat → r ≠ [] →
            ∃ x r', r = x :: r' ∧ name_char x = true ∧ x ≠ 44 ∧
                    Forall (λ y, name_char y = true) r').
  { intros p r Heq Hp Hr. destruct r as [|x r']; [done|]. exists x, r'.
    pose proof (token_suffix tok p (x :: r') Htok Heq ltac:(lia)) as Hall.
    apply Forall_cons in Hall as [Hx Hall].
    destruct Hcond as [Hlen|Hcomma].
    - rewrite Heq, length_app in Hlen. simpl in Hlen. lia.
    - repeat split; try done. intros ->. apply Hcomma. rewrite Heq. set_solver. }
  exists (closing ++ post). split; [done|]. split; [done|].
  assert (Hfirst : ∃ c1 closing', closing = c1 :: closing' ∧ c1 ≠ 40).
  { unfold delimiters in Hin.
    repeat (apply elem_of_cons in Hin as [[= -> ->]|Hin]); [..|by apply elem_of_nil in Hin];
      py_norm; eexists _, _; (split; [reflexivity|done]). }
  split.
  - assert (Hopen : endswith (pre ++ opening) opening = true) by apply endswith_app.
    assert (Hclose : startswith (closing ++ post) closing = true)
      by (apply startswith_app; eauto).
    unfold in_context, delimiters in *.
    repeat (apply elem_of_cons in Hin as [[= -> ->]|Hin]); [..|by apply elem_of_nil in Hin];
      auto 10.
  - intros p r Heq Hp Hr. destruct (Hearly p r Heq Hp Hr) as (x & r' & -> & Hx & Hx' & Hall).
    destruct Hfirst as (c1 & closing' & -> & Hc1).
    unfold in_context. py_norm.
    intros [[_ H]|[[_ H]|[[_ [H|H]]|[_ H]]]];
      apply startswith_app in H as [t Ht]; cbn [app] in Ht.
    + injection Ht as -> _. by vm_compute in Hx.
    + injection Ht as -> _. by vm_compute in Hx.
    + injection Ht as -> Ht. destruct r' as [|y r']; cbn [app] in Ht.
      * injection Ht as -> _. done.
      * injection Ht as -> _. apply Forall_cons in Hall as [Hy _]. by vm_compute in Hy.
    + by injection Ht as -> _.
    + by injection Ht as -> _.
Qed.

(** After an underscore, an opening square bracket or an opening
    parenthesis a token that reaches its closing delimiter is found,
    wherever it stands in the text: no earlier match can run over its
    opening delimiter. *)
Lemma delimited_token_is_found pre tok post opening closing :
  token tok → (opening, closing) ∈ delimiters → opening ≠ py "- " →
  length tok = 3%nat ∨ 44 ∉ tok →
  tok ∈ findall (pre ++ opening ++ tok ++ closing ++ post).
Proof.
  intros Htok Hin Hopening Hcond.
  pose proof (token_in_context_is_match pre tok post opening closing Htok Hin Hcond) as Hm.
  rewrite (app_assoc pre opening).
  apply match_in_text_is_found; [done|].
  intros s1 s2 m' Heq Hs2 (after & Hrest & Htok' & _).
  assert (Hlast : ∃ c0, opening = [c0] ∧ name_char c0 = false).
  { unfold delimiters in Hin.
    repeat (apply elem_of_cons in Hin as [[= -> ->]|Hin]); [..|by apply elem_of_nil in Hin];
      try done; py_norm; eexists; (split; [reflexivity|done]). }
  destruct Hlast as (c0 & -> & Hc0).
  destruct (decide (length m' ≤ length s2)%nat) as [|Hlong]; [done|exfalso].
  apply app_eq_inv in Hrest as [(k & Hs2k & _)|(k & Hm' & _)].
  - apply (f_equal length) in Hs2k. rewrite length_app in Hs2k. lia.
  - apply token_chars in Htok'. rewrite Hm' in Htok'.
    apply Forall_app in Htok' as [Hall _].
    assert (c0 ∈ s2) as Hc0in.
    { apply (f_equal last) in Heq. rewrite last_snoc, last_app in Heq.
      destruct (last s2) as [c|] eqn:Hl; [|by apply last_None in Hl].
      injection Heq as <-. apply last_Some in Hl as [s2' ->]. set_solver. }
    rewrite Forall_forall in Hall. specialize (Hall c0 Hc0in). congruence.
Qed.

End scan_facts.

Section split_facts.
Implicit Types (s t sep cur : str) (c : char).

Lemma split_from_nonempty sep s : ∀ cur skip, split_from sep cur s skip ≠ [].
Proof.
  induction s as [|c s IH]; intros cur skip; cbn [split_from]; [done|].
  destruct skip; [|apply IH]. destruct (startswith (c :: s) sep); [done|apply IH].
Qed.

Lemma join_cons sep p parts :
  parts ≠ [] → join sep (p :: parts) = p ++ sep ++ join sep parts.
Proof. by destruct parts. Qed.

Lemma join_split_from sep s : ∀ cur skip,
  sep ≠ [] →
  join sep (split_from sep cur s skip) = rev cur ++ drop skip s.
Proof.
  induction s as [|c s IH]; intros cur skip Hsep; cbn [split_from].
  - simpl. by rewrite drop_nil, app_nil_r.
  - destruct skip as [|k]; [|by rewrite IH].
    destruct (startswith (c :: s) sep) eqn:Hstart.
    + rewrite join_cons by apply split_from_nonempty.
      rewrite IH by done. simpl. f_equal.
      apply startswith_app in Hstart as [t Ht].
      destruct sep as [|x sep]; [done|]. simpl in *.
      injection Ht as -> ->. rewrite Nat.sub_0_r.
      by rewrite drop_app_length.
    + rewrite IH by done. simpl. by rewrite <-app_assoc.
Qed.

Lemma split_from_no_sep sep s : ∀ cur skip,
  sep ≠ [] →
  (skip = 0%nat ∨ cur = []) →
  (∀ p r, rev cur = p ++ r → r ≠ [] → startswith (r ++ s) sep = false) →
  Forall (λ seg, ¬ occurs_in sep seg) (split_from sep cur s skip).
Proof.
  assert (Hhead : ∀ cur s, sep ≠ [] →
    (∀ p r, rev cur = p ++ r → r ≠ [] → startswith (r ++ s) sep = false) →
    ¬ occurs_in sep (rev cur)).
  { intros cur s0 Hsep Hinv (b & a & Heq).
    assert (startswith ((sep ++ a) ++ s0) sep = true) as Htrue.
    { apply startswith_app. exists (a ++ s0). by rewrite <-app_assoc. }
    rewrite (Hinv b (sep ++ a)) in Htrue; [done|done|].
    by destruct sep. }
  induction s as [|c s IH]; intros cur skip Hsep Hskip Hinv; cbn [split_from].
  - constructor; [|constructor]. by apply (Hhead cur []).
  - destruct skip as [|k].
    + destruct (startswith (c :: s) sep) eqn:Hstart.
      * constructor; [by apply (Hhead cur (c :: s))|].
        apply IH; [done|by right|]. intros p r Hr. by destruct p, r.
      * apply IH; [done|by left|]. intros p r Heq Hr.
        simpl in Heq.
        destruct (decide (r = [c])) as [->|Hne]; [done|].
        assert (∃ r0, r = r0 ++ [c] ∧ rev cur = p ++ r0 ∧ r0 ≠ []) as (r0 & -> & Hcur & Hr0).
        { destruct (rev r) as [|x r1] eqn:Hrev.
          { apply (f_equal (@rev _)) in Hrev. rewrite rev_involutive in Hrev. done. }
          apply (f_equal (@rev _)) in Hrev. rewrite rev_involutive in Hrev.
          simpl in Hrev. subst r. rewrite app_assoc in Heq.
          apply app_inj_tail in Heq as [Hcur ->].
          exists (rev r1). split; [done|]. split; [done|].
          intros Hnil. rewrite Hnil in Hne. done. }
        rewrite <-app_assoc. simpl. by apply (Hinv p r0).
    + destruct Hskip as [?| ->]; [done|]. apply IH; [done|by right|].
      intros p r Hr. by destruct p, r.
Qed.

Lemma split_spec s sep :
  sep ≠ [] →
  ∃ segs, split s sep = Ok segs ∧ join sep segs = s ∧
          Forall (λ seg, ¬ occurs_in sep seg) segs.
Proof.
  intros Hsep. unfold split. destruct sep as [|x sep'] eqn:E; [done|].
  rewrite <-E in *. eexists. split; [done|]. split.
  - by rewrite join_split_from.
  - apply split_from_no_sep; [done|by left|]. intros p r Hr. by destruct p, r.
Qed.

End split_facts.

Section extraction_facts.
Implicit Types (s t sep n names : str) (c : char).

Lemma res_map_ok {A B} (f : A → res B) (l : list A) :
  (∀ x, x ∈ l → ∃ y, f x = Ok y) →
  ∃ ys, res_map f l = Ok ys ∧ Forall2 (λ x y, f x = Ok y) l ys.
Proof.
  induction l as [|x l IH]; intros Hall; simpl.
  - exists []. split; [done|constructor].
  - destruct (Hall x) as [y Hy]; [left|]. rewrite Hy. simpl.
    destruct IH as (ys & -> & Hys); [intros; apply Hall; by right|].
    exists (y :: ys). split; [done|]. by constructor.
Qed.

Lemma comma_space_nonempty : py ", " ≠ [].
Proof. done. Qed.

Lemma comment_names_spec s :
  ∃ l, comment_names (JStr s) = Ok l ∧
       ∀ n, n ∈ l ↔ ∃ names segs, names ∈ findall s ∧
                                  split names (py ", ") = Ok segs ∧ n ∈ segs.
Proof.
  unfold comment_names.
  destruct (res_map_ok (λ names, split names (py ", ")) (findall s)) as (ys & -> & Hys).
  { intros names _. destruct (split_spec names (py ", ") comma_space_nonempty) as (segs & ? & _).
    eauto. }
  exists (concat ys). split; [done|]. intros n.
  rewrite list_elem_of_In, in_concat. split.
  - intros (segs & Hsegs & Hn). apply list_elem_of_In in Hsegs, Hn.
    apply list_elem_of_lookup in Hsegs as [i Hi].
    destruct (Forall2_lookup_r _ _ _ _ _ Hys Hi) as (names & Hnames & Hsplit).
    exists names, segs. split; [|done]. by eapply list_elem_of_lookup_2.
  - intros (names & segs & Hnames & Hsplit & Hn).
    apply list_elem_of_lookup in Hnames as [i Hi].
    destruct (Forall2_lookup_l _ _ _ _ _ Hys Hi) as (segs' & Hsegs' & Hsplit').
    assert (segs' = segs) as -> by congruence.
    exists segs. split; apply list_elem_of_In; [|done]. by eapply list_elem_of_lookup_2.
Qed.

Lemma parse_comments_spec comments : ∀ authors,
  ∃ X, parse_comments authors (map JStr comments) = Ok X ∧
       ∀ n, n ∈ X ↔ n ∈ authors ∨
            ∃ comment names segs, comment ∈ comments ∧ names ∈ findall comment ∧
                                  split names (py ", ") = Ok segs ∧ n ∈ segs.
Proof.
  induction comments as [|s comments IH]; intros authors.
  - exists authors. split; [done|]. intros n. split; [auto|].
    intros [?|(?&?&?&?%elem_of_nil&?)]; done.
  - cbn [map parse_comments].
    destruct (comment_names_spec s) as (l & -> & Hl). cbn [mbind res_bind].
    destruct (IH (authors ∪ list_to_set l)) as (X & -> & HX).
    exists X. split; [done|]. intros n. rewrite HX, elem_of_union, elem_of_list_to_set, Hl.
    split.
    + intros [[?|(names & segs & ?)]|(comment & names & segs & ? & ?)]; [by left|right..].
      * exists s, names, segs. split; [left|done].
      * exists comment, names, segs. split; [by right|done].
    + intros [?|(comment & names & segs & [->|?]%elem_of_cons & ?)]; [by left;left|..].
      * left. right. eauto.
      * right. eauto 10.
Qed.

End extraction_facts.

Section codec_facts.
Implicit Types (G : Graph) (u v a b n : str) (X : gset str).

Lemma symmetric_spec G : symmetric G ↔ ∀ a b, has_edge G a b → has_edge G b a.
Proof.
  unfold symmetric, has_edge. rewrite map_Forall_lookup. split.
  - intros H a b Hb. destruct (G !! a) as [nbrs|] eqn:E; [|set_solver].
    by apply (H a nbrs E b).
  - intros H a nbrs E b Hb. apply (H a b). by rewrite E.
Qed.

Lemma has_node_add_nodes ids : ∀ G n,
  has_node (foldl add_node G ids) n ↔ has_node G n ∨ n ∈ ids.
Proof.
  induction ids as [|x ids IH]; intros G n; simpl.
  - set_solver.
  - rewrite IH, has_node_add_node. set_solver.
Qed.

Lemma has_edge_add_nodes ids : ∀ G a b,
  has_edge (foldl add_node G ids) a b ↔ has_edge G a b.
Proof.
  induction ids as [|x ids IH]; intros G a b; simpl; [done|].
  by rewrite IH, has_edge_add_node.
Qed.

Lemma has_node_add_links (ends : list (str * str)) : ∀ G n,
  has_node (foldl (λ G e, add_edge G (fst e) (snd e)) G ends) n ↔
  has_node G n ∨ ∃ e, e ∈ ends ∧ (n = fst e ∨ n = snd e).
Proof.
  induction ends as [|e ends IH]; intros G n; simpl.
  - split; [auto|]. intros [?|(?&?%elem_of_nil&?)]; done.
  - rewrite IH, has_node_add_edge. split.
    + intros [[?|?]|(e' & ? & ?)]; [by left|right..].
      * exists e. split; [left|done].
      * exists e'. split; [by right|done].
    + intros [?|(e' & [->|?]%elem_of_cons & ?)]; [by left;left|by left;right|].
      right. eauto.
Qed.

Lemma has_edge_add_links (ends : list (str * str)) : ∀ G a b,
  has_edge (foldl (λ G e, add_edge G (fst e) (snd e)) G ends) a b ↔
  has_edge G a b ∨ (a, b) ∈ ends ∨ (b, a) ∈ ends.
Proof.
  induction ends as [|[u v] ends IH]; intros G a b; simpl.
  - set_solver.
  - rewrite IH, has_edge_add_edge. set_solver.
Qed.

Lemma res_map_node_id ids : res_map node_id (map node_entry ids) = Ok ids.
Proof.
  induction ids as [|n ids IH]; [done|].
  cbn [map res_map]. rewrite IH. reflexivity.
Qed.

Lemma res_map_link_ends (ends : list (str * str)) :
  res_map link_ends (map link_entry ends) = Ok ends.
Proof.
  induction ends as [|[u v] ends IH]; [done|].
  cbn [map res_map]. rewrite IH. reflexivity.
Qed.

Lemma node_link_graph_document ids ends :
  node_link_graph (node_link_document ids ends) =
  Ok (foldl (λ G e, add_edge G (fst e) (snd e)) (foldl add_node ∅ ids) ends).
Proof.
  unfold node_link_graph, node_link_document.
  change (get_default _ (py "multigraph") _) with (Ok (JBool false)).
  change (get_default _ (py "directed") _) with (Ok (JBool false)).
  change (get_default _ (py "graph") _) with (Ok (JDict [])).
  cbn [mbind res_bind truthy orb].
  change (getitem _ (py "nodes")) with (Ok (JList (map node_entry ids))).
  change (getitem _ (py "links")) with (Ok (JList (map link_entry ends))).
  cbn [mbind res_bind iterate].
  rewrite res_map_node_id, res_map_link_ends. reflexivity.
Qed.

Lemma elem_of_nodes G n : n ∈ nodes G ↔ has_node G n.
Proof.
  unfold nodes, has_node. rewrite list_elem_of_fmap. split.
  - intros ([k nbrs] & -> & H%elem_of_map_to_list). eauto.
  - intros [nbrs H]. exists (n, nbrs). split; [done|]. by apply elem_of_map_to_list.
Qed.

Lemma edges_from_sound adj : ∀ seen a b,
  (a, b) ∈ edges_from adj seen → ∃ nbrs, (a, nbrs) ∈ adj ∧ b ∈ nbrs.
Proof.
  induction adj as [|[n nbrs] adj IH]; intros seen a b; simpl.
  - by intros ?%elem_of_nil.
  - intros [H|H]%elem_of_app.
    + apply list_elem_of_fmap in H as (y & [= -> ->] & Hy).
      apply list_elem_of_filter in Hy as [_ Hy]. apply elem_of_elements in Hy.
      exists nbrs. split; [left|done].
    + destruct (IH _ _ _ H) as (nbrs' & ? & ?). exists nbrs'. split; [by right|done].
Qed.

Lemma edges_from_complete adj : ∀ seen a b nbrs,
  NoDup adj.*1 →
  (∀ x xs y, (x, xs) ∈ adj → y ∈ xs → y ∉ seen → ∃ ys, (y, ys) ∈ adj ∧ x ∈ ys) →
  (a, nbrs) ∈ adj → b ∈ nbrs → a ∉ seen → b ∉ seen →
  (a, b) ∈ edges_from adj seen ∨ (b, a) ∈ edges_from adj seen.
Proof.
  induction adj as [|[n ns] adj IH]; intros seen a b nbrs Hnd Hsym Ha Hb Has Hbs.
  { by apply elem_of_nil in Ha. }
  simpl in Hnd. apply NoDup_cons in Hnd as [Hn Hnd]. simpl.
  assert (Hkey : ∀ xs, (n, xs) ∈ (n, ns) :: adj → xs = ns).
  { intros xs [[= ->]|Hin]%elem_of_cons; [done|].
    destruct Hn. apply list_elem_of_fmap. by exists (n, xs). }
  destruct (decide (a = n)) as [->|Han].
  { apply Hkey in Ha as ->. left. apply elem_of_app. left.
    apply list_elem_of_fmap. exists b. split; [done|].
    apply list_elem_of_filter. split; [done|]. by apply elem_of_elements. }
  destruct (Hsym a nbrs b Ha Hb Hbs) as (ys & Hys & Hay).
  destruct (decide (b = n)) as [->|Hbn].
  { apply Hkey in Hys as ->. right. apply elem_of_app. left.
    apply list_elem_of_fmap. exists a. split; [done|].
    apply list_elem_of_filter. split; [done|]. by apply elem_of_elements. }
  apply elem_of_cons in Ha as [[= ? ?]|Ha]; [done|].
  destruct (IH ({[n]} ∪ seen) a b nbrs) as [H|H]; try done.
  - intros x xs y Hx Hy Hyseen.
    destruct (Hsym x xs y) as (zs & Hzs & Hxz); [by right|done|set_solver|].
    apply elem_of_cons in Hzs as [[= -> ->]|Hzs]; [set_solver|]. eauto.
  - set_solver.
  - set_solver.
  - left. apply elem_of_app. by right.
  - right. apply elem_of_app. by right.
Qed.

Lemma elem_of_edges G a b :
  symmetric G → ((a, b) ∈ edges G ∨ (b, a) ∈ edges G) ↔ has_edge G a b.
Proof.
  intros Hsym0. pose proof (proj1 (symmetric_spec G) Hsym0) as Hsym. unfold edges.
  assert (Hlook : ∀ x xs, (x, xs) ∈ map_to_list G ↔ G !! x = Some xs).
  { intros. apply elem_of_map_to_list. }
  assert (Hedge : ∀ x y, has_edge G x y ↔ ∃ xs, (x, xs) ∈ map_to_list G ∧ y ∈ xs).
  { intros x y. unfold has_edge. setoid_rewrite Hlook.
    destruct (G !! x) as [xs|]; simpl; [naive_solver|]. split; [set_solver|].
    by intros (? & ? & ?). }
  split.
  - intros [H|H]; apply edges_from_sound in H; [|apply Hsym]; by apply Hedge.
  - intros (nbrs & Ha & Hb)%Hedge.
    apply (edges_from_complete _ ∅ a b nbrs); try done.
    + apply NoDup_fst_map_to_list.
    + intros x xs y Hx Hy _. apply Hedge, Hsym, Hedge. eauto.
Qed.

Lemma decode_document G node_list link_list :
  symmetric G → node_list ≡ₚ nodes G → link_list ≡ₚ edges G →
  node_link_graph (node_link_document node_list link_list) = Ok G.
Proof.
  intros Hsym Hn He. rewrite node_link_graph_document. f_equal.
  pose proof (proj1 (symmetric_spec G) Hsym) as Hsym'.
  apply graph_eq.
  - intros n. rewrite has_node_add_links, has_node_add_nodes.
    setoid_rewrite Hn. setoid_rewrite He. rewrite elem_of_nodes. split.
    + intros [[[? Hn0]|?]|([a b] & Hab & Heq)]; [by rewrite lookup_empty in Hn0|done|].
      assert (has_edge G a b) as Hedge by (apply elem_of_edges; auto).
      simpl in Heq. destruct Heq as [->| ->].
      * unfold has_edge, has_node in *. destruct (G !! a); [eauto|set_solver].
      * apply Hsym' in Hedge.
        unfold has_edge, has_node in *. destruct (G !! b); [eauto|set_solver].
    + auto.
  - intros a b. rewrite has_edge_add_links, has_edge_add_nodes.
    setoid_rewrite He. rewrite elem_of_edges by done.
    unfold has_edge at 1. rewrite lookup_empty. set_solver.
Qed.

End codec_facts.

Section scenarios.

(** The scenarios of the specification, run on the embedded code. *)

Example scenario_1 :
  parse_authors_from_comments (record_of [py "_Alice Example_ contributed this."])
  = Ok (Some {[ py "Alice Example" ]}).
Proof. vm_compute. reflexivity. Qed.

Example scenario_2 :
  parse_authors_from_comments (record_of [py "- Bob Carter (Jan 01 2020)"])
  = Ok (Some {[ py "Bob Carter" ]}).
Proof. vm_compute. reflexivity. Qed.

Example scenario_3 :
  parse_authors_from_comments (record_of [py "_Alice Example_, _Dana Lee_"])
  = Ok (Some ({[ py "Alice Example" ]} ∪ {[ py "Dana Lee" ]})).
Proof. vm_compute. reflexivity. Qed.

Example scenario_3_edge :
  add_authors ∅ (Some ({[ py "Alice Example" ]} ∪ {[ py "Dana Lee" ]}))
  = Ok (add_edge ∅ (py "Alice Example") (py "Dana Lee")).
Proof. vm_compute. reflexivity. Qed.

Example scenario_4 :
  let fs := with_listing example_fs [py "A000001.json"; py "A000001.json"] in
  let r := build_graph_from_directory fs (py "data/sequences") false (py "g") in
  returns_quietly r = true ∧
  number_of_edges (returned_graph r) = 1%nat ∧
  length (nodes (returned_graph r)) = 2%nat.
Proof. vm_compute. auto. Qed.

Example scenario_5 :
  let G := add_edge ∅ (py "Alice Example") (py "Dana Lee") in
  node_link_graph (node_link_data G) = Ok G.
Proof. vm_compute. reflexivity. Qed.

Example example_graph_edges :
  number_of_edges example_graph = 3%nat ∧
  bool_decide (has_edge example_graph (py "Alice Example") (py "Dana Lee")) = true ∧
  bool_decide (has_edge example_graph (py "Eve Moore") (py "Dana Lee")) = true ∧
  bool_decide (has_node example_graph (py "Bob Carter")) = false.
Proof. vm_compute. auto. Qed.

End scenarios.

Section process_facts.

(** The traced loader is the loader: it causes the same events and ends
    with the same result or with an exception of the same type. *)
Lemma load_json_traced_forget fs file_path print_content :
  forget (load_json_traced fs file_path print_content)
  = load_json fs file_path print_content.
Proof.
  unfold load_json_traced, load_json, open_r.
  destruct (file_at fs file_path) as [| |raw_data]; [done|done|].
  cbn [try_except_OSError mret traced_ret mbind traced_bind].
  destruct print_content; [|done].
  destruct (print_contents file_path raw_data) as [evs [[]|e]]; done.
Qed.

End process_facts.

Section claims.
Implicit Types (G : Graph) (u v a b n : str) (X : gset str).

(** C1: the graph returned by the builder has an edge between two
    different authors exactly when some record file of the directory has an
    extracted author set that contains both, and it has no edge from an
    author to itself. *)
Theorem built_edge_iff_coauthors fs dir_path save filename evs G :
  build_graph_from_directory fs dir_path save filename = (evs, Ok G) →
  (∀ a b, a ≠ b →
     (has_edge G a b ↔
      ∃ file_path X, file_path ∈ record_files fs dir_path ∧
                     extracted fs file_path X ∧ a ∈ X ∧ b ∈ X)) ∧
  (∀ a, ¬ has_edge G a a).
Proof.
  intros (d & names & Hd & Hnames & Hrun & _)%build_graph_inv.
  destruct (parse_files_spec _ _ _ _ _ _ Hrun) as (_ & _ & _ & He).
  assert (Hempty : ∀ a b, ¬ has_edge (∅ : Graph) a b).
  { intros a b. unfold has_edge. rewrite lookup_empty. set_solver. }
  split.
  - intros a b Hab. rewrite He. split.
    + intros [?%Hempty|(f & X & Hf & Hex & Ha & Hb & _)]; [done|].
      exists (d ++ f), X. split; [|done].
      apply (elem_of_record_files _ _ _ _ _ Hd Hnames). eauto.
    + intros (p & X & Hp & Hex & Ha & Hb). right.
      apply (elem_of_record_files _ _ _ _ _ Hd Hnames) in Hp as (f & Hf & ->).
      exists f, X. done.
  - intros a. rewrite He. intros [?%Hempty|(f & X & _ & _ & _ & _ & ?)]; done.
Qed.

Lemma built_edge_iff_coauthors_witness :
  build_graph_from_directory example_fs (py "data/sequences") false
    (py "comments_authors_graph") = ([], Ok example_graph) ∧
  ((∀ a b, a ≠ b →
     (has_edge example_graph a b ↔
      ∃ file_path X, file_path ∈ record_files example_fs (py "data/sequences") ∧
                     extracted example_fs file_path X ∧ a ∈ X ∧ b ∈ X)) ∧
   (∀ a, ¬ has_edge example_graph a a)).
Proof.
  assert (H : build_graph_from_directory example_fs (py "data/sequences") false
                (py "comments_authors_graph") = ([], Ok example_graph))
    by (apply returns_quietly_eq; vm_compute; reflexivity).
  split; [exact H|].
  exact (built_edge_iff_coauthors _ _ _ _ _ _ H).
Defined.

(** C2: a node is in the graph returned by the builder exactly when some
    record file of the directory has an extracted author set that contains
    it together with another author; a set with exactly one author leaves
    the graph as it is. *)
Theorem built_node_iff_coauthor fs dir_path save filename evs G :
  build_graph_from_directory fs dir_path save filename = (evs, Ok G) →
  (∀ n, has_node G n ↔
        ∃ file_path X, file_path ∈ record_files fs dir_path ∧
                       extracted fs file_path X ∧ n ∈ X ∧ ∃ m, m ∈ X ∧ m ≠ n) ∧
  (∀ G0 X, size X = 1%nat → add_authors G0 (Some X) = Ok G0).
Proof.
  intros (d & names & Hd & Hnames & Hrun & _)%build_graph_inv.
  destruct (parse_files_spec _ _ _ _ _ _ Hrun) as (_ & _ & Hn & _).
  split.
  - intros n. rewrite Hn. split.
    + intros [[? Hn0]|(f & X & Hf & Hex & HnX)].
      { by rewrite lookup_empty in Hn0. }
      exists (d ++ f), X. split; [|done].
      apply (elem_of_record_files _ _ _ _ _ Hd Hnames). eauto.
    + intros (p & X & Hp & Hex & HnX). right.
      apply (elem_of_record_files _ _ _ _ _ Hd Hnames) in Hp as (f & Hf & ->).
      exists f, X. done.
  - intros G0 X HX.
    apply size_1_elem_of in HX as [x HX]. apply leibniz_equiv in HX as ->.
    unfold add_authors. rewrite bool_decide_true by set_solver.
    by rewrite elements_singleton.
Qed.

Lemma built_node_iff_coauthor_witness :
  build_graph_from_directory example_fs (py "data/sequences") false
    (py "comments_authors_graph") = ([], Ok example_graph) ∧
  ((∀ n, has_node example_graph n ↔
        ∃ file_path X, file_path ∈ record_files example_fs (py "data/sequences") ∧
                       extracted example_fs file_path X ∧ n ∈ X ∧ ∃ m, m ∈ X ∧ m ≠ n) ∧
   (∀ G0 X, size X = 1%nat → add_authors G0 (Some X) = Ok G0)).
Proof.
  assert (H : build_graph_from_directory example_fs (py "data/sequences") false
                (py "comments_authors_graph") = ([], Ok example_graph))
    by (apply returns_quietly_eq; vm_compute; reflexivity).
  split; [exact H|].
  exact (built_node_iff_coauthor _ _ _ _ _ _ H).
Defined.

(** C3 (the code differs): at a document without the [results] key the
    extraction does not return an empty result; [raw_data.get('results')]
    is [None] and indexing it raises [TypeError]. *)
Theorem missing_results_raises :
  parse_authors_from_comments (JDict []) = Raise TypeError.
Proof. reflexivity. Qed.

(** Whatever else the document holds, a missing [results] key raises. *)
Lemma results_absent_raises d :
  assoc (py "results") d = None →
  parse_authors_from_comments (JDict d) = Raise TypeError.
Proof. intros H. unfold parse_authors_from_comments, get. by rewrite H. Qed.

(** The other half of C3 holds: a first result without the [comment] key
    gives the empty result [None]. *)
Lemma missing_comment_returns_none d d' results' :
  assoc (py "results") d = Some (JList (JDict d' :: results')) →
  assoc (py "comment") d' = None →
  parse_authors_from_comments (JDict d) = Ok None.
Proof.
  intros Hr Hc. unfold parse_authors_from_comments, get. rewrite Hr.
  cbn [default from_option id mbind res_bind getitem0]. by rewrite Hc.
Qed.

(** C4: folding a record with an author set of size k into the graph
    changes nothing when k < 2 (or when there is no set); when k >= 2 it
    adds the C(k,2) pairs listed by [combinations], one for each unordered
    pair of different members, so that afterwards the edges are the old
    ones and all the pairs over the set, the nodes are the old ones and the
    members, and the number of edges has grown by C(k,2) when none of the
    pairs was an edge before. *)
Theorem add_authors_adds_clique G X :
  add_authors G None = Ok G ∧
  ((size X < 2)%nat → add_authors G (Some X) = Ok G) ∧
  ((2 ≤ size X)%nat → ∃ G',
     add_authors G (Some X) = Ok G' ∧
     length (combinations (elements X) 2) = choose (size X) 2 ∧
     (∀ a b, a ∈ X → b ∈ X → a ≠ b →
        ([a; b] ∈ combinations (elements X) 2 ∧ [b; a] ∉ combinations (elements X) 2) ∨
        ([b; a] ∈ combinations (elements X) 2 ∧ [a; b] ∉ combinations (elements X) 2)) ∧
     (∀ a b, has_edge G' a b ↔ has_edge G a b ∨ (a ∈ X ∧ b ∈ X ∧ a ≠ b)) ∧
     (∀ n, has_node G' n ↔ has_node G n ∨ n ∈ X) ∧
     ((∀ a b, a ∈ X → b ∈ X → a ≠ b → ¬ has_edge G a b) →
        number_of_edges G' = (number_of_edges G + choose (size X) 2)%nat)).
Proof.
  split; [done|]. split.
  - intros Hk. unfold add_authors. case_bool_decide as HX; [|done].
    destruct (elements X) as [|x [|y l]] eqn:E; try done.
    assert (size X = length (elements X)) as Hs by done.
    rewrite E in Hs. simpl in Hs. lia.
  - intros Hk.
    destruct (add_authors_spec G (Some X)) as (G' & HG' & Hn & He).
    exists G'. split; [done|]. split; [|split; [|split; [|split]]].
    + by rewrite combinations_length.
    + intros a b Ha Hb Hab.
      destruct (combinations_2_complete (elements X) a b) as [H|H];
        [by apply elem_of_elements..|done| |]; [left|right];
        (split; [done|]); by apply (combinations_2_distinct _ _ _ (NoDup_elements X)) in H as [_ ?].
    + intros a b. rewrite He. naive_solver.
    + intros n. rewrite Hn. split.
      * intros [?|(X' & [= <-] & ? & _)]; auto.
      * intros [?|HnX]; [by left|right]. exists X. split; [done|]. split; [done|].
        destruct (elements X) as [|x [|y l]] eqn:E.
        -- assert (size X = length (elements X)) as Hs by done.
           rewrite E in Hs. simpl in Hs. lia.
        -- assert (size X = length (elements X)) as Hs by done.
           rewrite E in Hs. simpl in Hs. lia.
        -- pose proof (NoDup_elements X) as Hnd. rewrite E in Hnd.
           assert (x ≠ y).
           { apply NoDup_cons in Hnd as [Hx _]. intros ->. apply Hx. left. }
           destruct (decide (n = x)) as [->|?].
           ++ exists y. split; [|done]. apply elem_of_elements. rewrite E. set_solver.
           ++ exists x. split; [|done]. apply elem_of_elements. rewrite E. set_solver.
    + intros Hfresh. unfold number_of_edges.
      unfold add_authors in HG'. rewrite bool_decide_true in HG'.
      2:{ intros ->. rewrite size_empty in Hk. lia. }
      rewrite (degree_sum_add_edges_from _ _ _ HG').
      * rewrite combinations_length.
        change (length (elements X)) with (size X).
        rewrite Nat.add_comm, Nat.mul_comm, Nat.div_add_l by done. lia.
      * apply Forall_forall. intros e. apply combinations_tuple_length.
      * apply combinations_2_unordered, NoDup_elements.
      * intros a b Hab.
        pose proof (combinations_2_distinct _ _ _ (NoDup_elements X) Hab) as [Hne _].
        apply elem_of_combinations_2 in Hab as [Ha Hb].
        apply elem_of_elements in Ha, Hb. split; apply Hfresh; done.
Qed.

(** C5: the graph built from a directory is the union of the cliques over
    the author sets of its record files: its edges join exactly the pairs
    of different authors of one file, its nodes are exactly their ends, the
    graph built from one file alone is the clique of that file, and listing
    the files in another order gives the same run, the same graph and the
    same union. *)
Theorem built_graph_is_union fs dir_path save filename evs G :
  build_graph_from_directory fs dir_path save filename = (evs, Ok G) →
  ∃ d names,
    with_slash dir_path = Ok d ∧ listdir fs d = Some names ∧
    G = graph_unions (map (λ f, clique (authors_of fs (d ++ f))) (json_files names)) ∧
    (∀ a b, has_edge G a b ↔
            ∃ f, f ∈ json_files names ∧ a ∈ authors_of fs (d ++ f) ∧
                 b ∈ authors_of fs (d ++ f) ∧ a ≠ b) ∧
    (∀ n, has_node G n ↔
          ∃ f m, f ∈ json_files names ∧ n ∈ authors_of fs (d ++ f) ∧
                 m ∈ authors_of fs (d ++ f) ∧ m ≠ n) ∧
    (∀ f, f ∈ json_files names →
       build_graph_from_directory (with_listing fs [f]) dir_path false filename
       = ([], Ok (clique (authors_of fs (d ++ f))))) ∧
    (∀ names', names' ≡ₚ names →
       build_graph_from_directory (with_listing fs names') dir_path save filename
       = (evs, Ok G) ∧
       graph_unions (map (λ f, clique (authors_of fs (d ++ f))) (json_files names')) = G).
Proof.
  intros (d & names & Hd & Hnames & Hrun & Hsave)%build_graph_inv.
  exists d, names. split; [done|]. split; [done|].
  destruct (parse_files_union _ _ _ _ _ Hrun) as (Hedges & Hnodes & Hunion).
  destruct (parse_files_spec _ _ _ _ _ _ Hrun) as (_ & Hall & _).
  split; [done|]. split; [done|]. split; [done|]. split.
  - intros f Hf. rewrite build_graph_run, Hd. cbn [listdir with_listing].
    rewrite parse_files_with_listing.
    assert (Hjson : json_files [f] = [f]).
    { unfold json_files in *. apply list_elem_of_filter in Hf as [Hf _].
      cbn [filter list_filter]. by rewrite decide_True. }
    rewrite Hjson.
    destruct (parse_files_total fs d [f] ∅) as [Gf HGf].
    { intros f' ->%list_elem_of_singleton. by apply Hall. }
    rewrite HGf, io_bind_quiet. cbn [save_graph]. do 2 f_equal.
    destruct (parse_files_union _ _ _ _ _ HGf) as (_ & _ & ->).
    apply graph_unions_singleton.
  - intros names' Hperm.
    assert (Hjson : json_files names ≡ₚ json_files names').
    { unfold json_files. by rewrite Hperm. }
    pose proof (parse_files_perm fs d _ _ ∅ [] G Hjson Hrun) as Hrun'.
    split.
    + rewrite build_graph_run, Hd. cbn [listdir with_listing].
      rewrite parse_files_with_listing, Hrun'. by rewrite io_bind_quiet.
    + by destruct (parse_files_union _ _ _ _ _ Hrun') as (_ & _ & <-).
Qed.

Lemma built_graph_is_union_witness :
  build_graph_from_directory example_fs (py "data/sequences") false
    (py "comments_authors_graph") = ([], Ok example_graph) ∧
  ∃ d names,
    with_slash (py "data/sequences") = Ok d ∧ listdir example_fs d = Some names ∧
    example_graph
      = graph_unions (map (λ f, clique (authors_of example_fs (d ++ f))) (json_files names)) ∧
    (∀ a b, has_edge example_graph a b ↔
            ∃ f, f ∈ json_files names ∧ a ∈ authors_of example_fs (d ++ f) ∧
                 b ∈ authors_of example_fs (d ++ f) ∧ a ≠ b) ∧
    (∀ n, has_node example_graph n ↔
          ∃ f m, f ∈ json_files names ∧ n ∈ authors_of example_fs (d ++ f) ∧
                 m ∈ authors_of example_fs (d ++ f) ∧ m ≠ n) ∧
    (∀ f, f ∈ json_files names →
       build_graph_from_directory (with_listing example_fs [f]) (py "data/sequences")
         false (py "comments_authors_graph")
       = ([], Ok (clique (authors_of example_fs (d ++ f))))) ∧
    (∀ names', names' ≡ₚ names →
       build_graph_from_directory (with_listing example_fs names') (py "data/sequences")
         false (py "comments_authors_graph") = ([], Ok example_graph) ∧
       graph_unions (map (λ f, clique (authors_of example_fs (d ++ f))) (json_files names'))
       = example_graph).
Proof.
  assert (H : build_graph_from_directory example_fs (py "data/sequences") false
                (py "comments_authors_graph") = ([], Ok example_graph))
    by (apply returns_quietly_eq; vm_compute; reflexivity).
  split; [exact H|].
  exact (built_graph_is_union _ _ _ _ _ _ H).
Defined.

(** The graph that the builder returns is symmetric. *)
Lemma built_graph_symmetric fs dir_path save filename evs G :
  build_graph_from_directory fs dir_path save filename = (evs, Ok G) →
  symmetric G.
Proof.
  intros (d & names & _ & _ & Hrun & _)%build_graph_inv.
  destruct (parse_files_spec _ _ _ _ _ _ Hrun) as (_ & _ & _ & He).
  apply (proj2 (symmetric_spec G)). intros a b. rewrite !He.
  intros [Hab|(f & X & ? & ? & ? & ? & ?)].
  - unfold has_edge in Hab. rewrite lookup_empty in Hab. set_solver.
  - right. exists f, X. auto.
Qed.

(** The builder returns a graph when the directory can be listed and each
    of its record files loads and goes through the extraction. *)
Lemma build_graph_returns fs dir_path filename d names :
  with_slash dir_path = Ok d → listdir fs d = Some names →
  (∀ f, f ∈ json_files names → ∃ raw_data authors,
     file_at fs (d ++ f) = Document raw_data ∧
     parse_authors_from_comments raw_data = Ok authors) →
  ∃ G, build_graph_from_directory fs dir_path false filename = ([], Ok G).
Proof.
  intros Hd Hnames Hall. rewrite build_graph_run, Hd, Hnames.
  destruct (parse_files_total fs d (json_files names) ∅ Hall) as [G ->].
  exists G. by rewrite io_bind_quiet.
Qed.

(** C6: decoding the node-link document of a graph gives the graph back,
    with the same nodes and the same edges, whatever the order in which
    the document lists the nodes and the links; so does [load_json_graph]
    on a file that holds such a document. *)
Theorem saved_graph_reloads G node_list link_list fs file_path :
  symmetric G →
  node_list ≡ₚ nodes G → link_list ≡ₚ edges G →
  file_at fs file_path = Document (node_link_document node_list link_list) →
  node_link_graph (node_link_data G) = Ok G ∧
  node_link_graph (node_link_document node_list link_list) = Ok G ∧
  load_json_graph fs file_path = ([], Ok G).
Proof.
  intros Hsym Hn He Hfile. split; [|split].
  - by apply (decode_document G (nodes G) (edges G)).
  - by apply decode_document.
  - unfold load_json_graph. rewrite Hfile. unfold lift.
    by rewrite (decode_document G node_list link_list).
Qed.

Lemma saved_graph_reloads_witness :
  symmetric example_graph ∧
  nodes example_graph ≡ₚ nodes example_graph ∧
  edges example_graph ≡ₚ edges example_graph ∧
  file_at example_saved_fs (py "data/comments_authors_graph.json")
    = Document (node_link_document (nodes example_graph) (edges example_graph)) ∧
  node_link_graph (node_link_data example_graph) = Ok example_graph ∧
  node_link_graph (node_link_document (nodes example_graph) (edges example_graph))
    = Ok example_graph ∧
  load_json_graph example_saved_fs (py "data/comments_authors_graph.json")
    = ([], Ok example_graph).
Proof.
  assert (Hsym : symmetric example_graph).
  { apply (bool_decide_unpack _). vm_compute. exact I. }
  assert (Hfile : file_at example_saved_fs (py "data/comments_authors_graph.json")
            = Document (node_link_document (nodes example_graph) (edges example_graph)))
    by reflexivity.
  split; [exact Hsym|]. split; [reflexivity|]. split; [reflexivity|].
  split; [exact Hfile|].
  exact (saved_graph_reloads example_graph (nodes example_graph) (edges example_graph)
           example_saved_fs (py "data/comments_authors_graph.json")
           Hsym (reflexivity _) (reflexivity _) Hfile).
Defined.

(** What the builder saves is reloaded as the graph it returns. *)
Lemma build_save_then_load fs dir_path filename evs G :
  build_graph_from_directory fs dir_path true filename = (evs, Ok G) →
  ∃ out_file,
    evs = [WriteFile out_file (node_link_data G)] ∧
    ∀ fs', file_at fs' out_file = Document (node_link_data G) →
           load_json_graph fs' out_file = ([], Ok G).
Proof.
  intros Hbuild. pose proof (built_graph_symmetric _ _ _ _ _ _ Hbuild) as Hsym.
  apply build_graph_inv in Hbuild as (d & names & _ & _ & _ & Hsave).
  unfold save_graph in Hsave.
  destruct (save_path d filename) as [out_file|]; [|done].
  destruct (creatable fs out_file); [|done].
  injection Hsave as <-. exists out_file. split; [done|].
  intros fs' Hfile. unfold load_json_graph. rewrite Hfile. unfold lift, node_link_data.
  by rewrite (decode_document G (nodes G) (edges G)).
Qed.

(** C7, counterexample: a two-character token between underscores has the
    shape the claim asks for and is not matched. *)
Lemma two_letter_token_not_matched :
  spec_token (py "Al") ∧
  (py "_", py "_") ∈ delimiters ∧
  findall (py "_" ++ py "Al" ++ py "_") = [] ∧
  parse_authors_from_comments (record_of [py "_Al_"]) = Ok (Some ∅).
Proof.
  split; [|split; [|split]].
  - exists 65, (py "l"). split; [reflexivity|]. split; [reflexivity|].
    split; [simpl; lia|]. by repeat constructor.
  - left.
  - vm_compute; reflexivity.
  - vm_compute; reflexivity.
Qed.

(** C7, amended: the extractor returns exactly the matches of a scan of the
    text from the left: at the leftmost position where a token in context
    starts it takes the shortest such token and goes on right after it.  A
    token is an uppercase letter (not followed by an equals sign and an
    uppercase letter) and at least two more characters that are neither
    digits nor excluded punctuation, so at least three characters in all,
    and it stands in one of the four contexts.  Anywhere in a text, a token
    of exactly three characters, or of any length without a comma, between
    the delimiters of a context is the match at its position; it is
    extracted when no earlier match runs over it, which cannot happen after
    an underscore, an opening square bracket or an opening parenthesis. *)
Theorem findall_matches_tokens :
  (∀ text,
     Forall (λ m, ∃ before after,
               text = before ++ m ++ after ∧ token m ∧ in_context before after)
            (findall text)) ∧
  (∀ m, token m → (3 ≤ length m)%nat) ∧
  (∀ before rest m,
     pattern (rev before) rest = Some m ↔
     ∃ after, rest = m ++ after ∧ token m ∧ in_context before after ∧
       ∀ p r, m = p ++ r → (3 ≤ length p)%nat → r ≠ [] →
              ¬ in_context before (r ++ after)) ∧
  (∀ tok opening closing,
     token tok → (opening, closing) ∈ delimiters →
     length tok = 3%nat ∨ 44 ∉ tok →
     findall (opening ++ tok ++ closing) = [tok]) ∧
  (∀ text ms, findall text = ms ↔ scan [] text ms) ∧
  (∀ pre m post,
     match_at pre (m ++ post) m →
     (∀ s1 s2 m', pre = s1 ++ s2 → s2 ≠ [] → match_at s1 (s2 ++ m ++ post) m' →
                  (length m' ≤ length s2)%nat) →
     m ∈ findall (pre ++ m ++ post)) ∧
  (∀ pre tok post opening closing,
     token tok → (opening, closing) ∈ delimiters →
     length tok = 3%nat ∨ 44 ∉ tok →
     match_at (pre ++ opening) (tok ++ closing ++ post) tok ∧
     (opening ≠ py "- " → tok ∈ findall (pre ++ opening ++ tok ++ closing ++ post))).
Proof.
  split; [|split; [|split; [|split; [|split; [|split]]]]].
  - intros text. apply (findall_from_sound text [] 0%nat).
  - apply token_length.
  - intros before rest m. rewrite pattern_exact. by rewrite rev_involutive.
  - apply token_alone_is_found.
  - apply findall_scan.
  - apply match_in_text_is_found.
  - intros pre tok post opening closing Htok Hin Hcond. split.
    + by apply token_in_context_is_match.
    + intros Hopening. by apply delimited_token_is_found.
Qed.

(** C8, counterexample: a match with a comma that is not followed by a
    space stays one author. *)
Lemma comma_without_space_not_split :
  findall (py "_Smith,Jones_") = [py "Smith,Jones"] ∧
  split (py "Smith,Jones") (py ",") = Ok [py "Smith"; py "Jones"] ∧
  parse_authors_from_comments (record_of [py "_Smith,Jones_"])
    = Ok (Some {[ py "Smith,Jones" ]}) ∧
  ¬ (py "Smith" ∈ ({[ py "Smith,Jones" ]} : gset str)) ∧
  ¬ (py "Jones" ∈ ({[ py "Smith,Jones" ]} : gset str)).
Proof.
  split; [vm_compute; reflexivity|]. split; [vm_compute; reflexivity|].
  split; [vm_compute; reflexivity|].
  split; (apply not_elem_of_singleton; vm_compute; discriminate).
Qed.

(** C8, amended: the extractor splits every match at the occurrences of
    the two characters comma and space, and the authors of a record are
    exactly the segments so obtained from the matches of its comments;
    joining the segments with comma-space gives the match back and no
    segment contains comma-space. *)
Theorem authors_are_comma_space_segments raw_data results first comments :
  get raw_data (py "results") = Ok results →
  getitem0 results = Ok first →
  get first (py "comment") = Ok (JList (map JStr comments)) →
  comments ≠ [] →
  ∃ authors,
    parse_authors_from_comments raw_data = Ok (Some authors) ∧
    (∀ n, n ∈ authors ↔
          ∃ comment names segs, comment ∈ comments ∧ names ∈ findall comment ∧
                                split names (py ", ") = Ok segs ∧ n ∈ segs) ∧
    (∀ names, ∃ segs, split names (py ", ") = Ok segs ∧
                      join (py ", ") segs = names ∧
                      Forall (λ n, ¬ occurs_in (py ", ") n) segs).
Proof.
  intros Hresults Hfirst Hcomment Hne.
  unfold parse_authors_from_comments. rewrite Hresults. cbn [mbind res_bind].
  rewrite Hfirst. cbn [mbind res_bind]. rewrite Hcomment. cbn [mbind res_bind].
  destruct comments as [|s comments]; [done|]. cbn [map truthy iterate mbind res_bind].
  destruct (parse_comments_spec (s :: comments) ∅) as (X & HX & Hmem).
  cbn [map] in HX. rewrite HX. cbn [mbind res_bind].
  exists X. split; [done|]. split.
  - intros n. rewrite Hmem. split; [|auto]. intros [?|?]; [set_solver|done].
  - intros names. apply split_spec, comma_space_nonempty.
Qed.

Lemma authors_are_comma_space_segments_witness :
  let comments := [py "- A, Bob (x"; py "_Smith,Jones_"] in
  let first := JDict [(py "comment", JList (map JStr comments))] in
  get (record_of comments) (py "results") = Ok (JList [first]) ∧
  getitem0 (JList [first]) = Ok first ∧
  get first (py "comment") = Ok (JList (map JStr comments)) ∧
  comments ≠ [] ∧
  ∃ authors,
    parse_authors_from_comments (record_of comments) = Ok (Some authors) ∧
    (∀ n, n ∈ authors ↔
          ∃ comment names segs, comment ∈ comments ∧ names ∈ findall comment ∧
                                split names (py ", ") = Ok segs ∧ n ∈ segs) ∧
    (∀ names, ∃ segs, split names (py ", ") = Ok segs ∧
                      join (py ", ") segs = names ∧
                      Forall (λ n, ¬ occurs_in (py ", ") n) segs).
Proof.
  intros comments first.
  assert (H1 : get (record_of comments) (py "results") = Ok (JList [first]))
    by reflexivity.
  assert (H2 : getitem0 (JList [first]) = Ok first) by reflexivity.
  assert (H3 : get first (py "comment") = Ok (JList (map JStr comments)))
    by reflexivity.
  assert (H4 : comments ≠ []) by discriminate.
  repeat (split; [assumption|]).
  exact (authors_are_comma_space_segments
           (record_of comments) (JList [first]) first comments H1 H2 H3 H4).
Defined.

(** C9: when the file cannot be opened, the load does not return and
    prints nothing itself: the handler reads the local [file], which was
    never assigned, so [UnboundLocalError] is raised while the [OSError] of
    [open] is handled, before the handler's message and before
    [sys.exit()].  Uncaught, it ends the process with status 1, and the
    interpreter's report on the standard error stream shows the [OSError]
    with the path, then the [UnboundLocalError]. *)
Theorem unopenable_file_ends_process fs file_path print_content :
  file_at fs file_path = Unopenable →
  load_json fs file_path print_content = ([], Raise UnboundLocalError) ∧
  forget (load_json_traced fs file_path print_content)
    = load_json fs file_path print_content ∧
  status (run_process (load_json_traced fs file_path print_content)) = 1%Z ∧
  events (run_process (load_json_traced fs file_path print_content)) = [] ∧
  stderr (run_process (load_json_traced fs file_path print_content))
    = [ {| exc_type := OSError; exc_filename := Some file_path |};
        {| exc_type := UnboundLocalError; exc_filename := None |} ] ∧
  ∃ x, x ∈ stderr (run_process (load_json_traced fs file_path print_content)) ∧
       exc_filename x = Some file_path.
Proof.
  intros H. split; [unfold load_json; by rewrite H|].
  split; [apply load_json_traced_forget|].
  unfold load_json_traced, open_r. rewrite H.
  split; [done|]. split; [done|]. split; [done|].
  exists {| exc_type := OSError; exc_filename := Some file_path |}.
  split; [|done]. cbn. apply elem_of_cons. by left.
Qed.

Lemma unopenable_file_ends_process_witness :
  file_at example_fs (py "data/sequences/A000009.json") = Unopenable ∧
  load_json example_fs (py "data/sequences/A000009.json") false
    = ([], Raise UnboundLocalError) ∧
  forget (load_json_traced example_fs (py "data/sequences/A000009.json") false)
    = load_json example_fs (py "data/sequences/A000009.json") false ∧
  status (run_process (load_json_traced example_fs (py "data/sequences/A000009.json") false))
    = 1%Z ∧
  events (run_process (load_json_traced example_fs (py "data/sequences/A000009.json") false))
    = [] ∧
  stderr (run_process (load_json_traced example_fs (py "data/sequences/A000009.json") false))
    = [ {| exc_type := OSError;
           exc_filename := Some (py "data/sequences/A000009.json") |};
        {| exc_type := UnboundLocalError; exc_filename := None |} ] ∧
  ∃ x, x ∈ stderr (run_process
                     (load_json_traced example_fs (py "data/sequences/A000009.json") false)) ∧
       exc_filename x = Some (py "data/sequences/A000009.json").
Proof.
  assert (H : file_at example_fs (py "data/sequences/A000009.json") = Unopenable)
    by (vm_compute; reflexivity).
  split; [exact H|].
  exact (unopenable_file_ends_process example_fs (py "data/sequences/A000009.json") false H).
Defined.

(** C10: when [results] is present and is the empty list, the extraction
    does not return: taking its first element raises [IndexError]. *)
Theorem empty_results_raises d :
  assoc (py "results") d = Some (JList []) →
  parse_authors_from_comments (JDict d) = Raise IndexError.
Proof. intros H. unfold parse_authors_from_comments, get. by rewrite H. Qed.

Lemma empty_results_raises_witness :
  assoc (py "results") [(py "greeting", JStr (py "hello")); (py "results", JList [])]
    = Some (JList []) ∧
  parse_authors_from_comments
    (JDict [(py "greeting", JStr (py "hello")); (py "results", JList [])])
    = Raise IndexError.
Proof.
  assert (H : assoc (py "results")
                [(py "greeting", JStr (py "hello")); (py "results", JList [])]
              = Some (JList []))
    by (vm_compute; reflexivity).
  split; [exact H|].
  exact (empty_results_raises _ H).
Defined.

End claims.

(** ** Further properties of the extraction *)

Section extraction_properties.
Implicit Types (s t m n names sep : str) (c : char).

Lemma occurs_in_trans s t u : occurs_in s t → occurs_in t u → occurs_in s u.
Proof.
  intros (b1 & a1 & ->) (b2 & a2 & ->).
  exists (b2 ++ b1), (a1 ++ a2). by rewrite <-!app_assoc.
Qed.

Lemma occurs_in_Forall (P : char → Prop) s t :
  occurs_in s t → Forall P t → Forall P s.
Proof.
  intros (b & a & ->) H. apply Forall_app in H as [_ H].
  by apply Forall_app in H as [H _].
Qed.

Lemma occurs_in_join sep (parts : list str) n :
  n ∈ parts → occurs_in n (join sep parts).
Proof.
  induction parts as [|p parts IH]; [by intros ?%elem_of_nil|].
  intros [->|Hn]%elem_of_cons.
  - destruct parts as [|q parts].
    + exists [], []. simpl. by rewrite app_nil_r.
    + exists [], (sep ++ join sep (q :: parts)). done.
  - destruct parts as [|q parts]; [by apply elem_of_nil in Hn|].
    destruct (IH Hn) as (b & a & Heq).
    exists (p ++ sep ++ b), a.
    change (join sep (p :: q :: parts)) with (p ++ sep ++ join sep (q :: parts)).
    rewrite Heq. by rewrite <-!app_assoc.
Qed.

Lemma elem_of_findall text m :
  m ∈ findall text → token m ∧ occurs_in m text.
Proof.
  intros Hm.
  pose proof (findall_from_sound text [] 0%nat) as Hall.
  rewrite Forall_forall in Hall.
  destruct (Hall m Hm) as (b & a & Heq & Htok & _). split; [done|].
  exists b, a. done.
Qed.

Lemma parse_comments_strings items : ∀ authors X,
  parse_comments authors items = Ok X → ∃ comments, items = map JStr comments.
Proof.
  induction items as [|x items IH]; intros authors X; [by exists []|].
  cbn [parse_comments]. destruct x; try done.
  destruct (comment_names (JStr s)) as [l|] eqn:E; [|done]. cbn [mbind res_bind].
  intros (comments & ->)%IH. by exists (s :: comments).
Qed.

Lemma startswith_length s prefix :
  startswith s prefix = true → (length prefix ≤ length s)%nat.
Proof. intros [t ->]%startswith_app. rewrite length_app. lia. Qed.

(** A match and the two delimiters around it need five characters. *)
Lemma findall_short text : (length text < 5)%nat → findall text = [].
Proof.
  intros Hlen. destruct (findall text) as [|m ms] eqn:E; [done|exfalso].
  pose proof (findall_from_sound text [] 0%nat) as Hall.
  fold (findall text) in Hall. rewrite E in Hall.
  apply Forall_cons in Hall as [(b & a & Heq & Htok & Hctx) _].
  simpl in Heq.
  pose proof (token_length m Htok) as Hm.
  assert (1 ≤ length b ∧ 1 ≤ length a)%nat as [Hb Ha].
  { unfold in_context, endswith in Hctx.
    assert (∀ ctx, ctx ≠ [] → startswith (rev b) (rev ctx) = true → (1 ≤ length b)%nat) as Hbef.
    { intros ctx Hne H%startswith_length. rewrite !length_rev in H.
      destruct ctx; [done|]. simpl in H. lia. }
    assert (∀ ctx, ctx ≠ [] → startswith a ctx = true → (1 ≤ length a)%nat) as Haft.
    { intros ctx Hne H%startswith_length. destruct ctx; [done|]. simpl in H. lia. }
    destruct Hctx as [[H1 H2]|[[H1 H2]|[[H1 [H2|H2]]|[H1 H2]]]];
      (split; [eapply Hbef; [|exact H1]; done | eapply Haft; [|exact H2]; done]). }
  rewrite Heq, !length_app in Hlen. lia.
Qed.

(** Iterating a string gives its characters, and no character holds a
    name. *)
Lemma parse_comments_chars s : ∀ authors,
  parse_comments authors (map (λ c, JStr [c]) s) = Ok authors.
Proof.
  induction s as [|c s IH]; intros authors; [done|].
  cbn [map parse_comments comment_names].
  rewrite findall_short by (simpl; lia).
  cbn [res_map mbind res_bind concat list_to_set foldr].
  rewrite IH. f_equal. set_solver.
Qed.

(** X1: every name that the extraction returns is made of characters of
    the name class only (no digit, no excluded punctuation), holds no
    comma followed by a space, and occurs verbatim in one of the comments of
    the first result of the record. *)
Theorem extracted_names_are_clean raw_data authors n :
  parse_authors_from_comments raw_data = Ok (Some authors) →
  n ∈ authors →
  Forall (λ c, name_char c = true) n ∧
  ¬ occurs_in (py ", ") n ∧
  ∃ results first comment_list items comment,
    get raw_data (py "results") = Ok results ∧
    getitem0 results = Ok first ∧
    get first (py "comment") = Ok comment_list ∧
    iterate comment_list = Ok items ∧
    JStr comment ∈ items ∧ occurs_in n comment.
Proof.
  unfold parse_authors_from_comments.
  destruct (get raw_data (py "results")) as [results|] eqn:Hr; [|done].
  cbn [mbind res_bind].
  destruct (getitem0 results) as [first|] eqn:Hf; [|done]. cbn [mbind res_bind].
  destruct (get first (py "comment")) as [comment_list|] eqn:Hc; [|done].
  cbn [mbind res_bind].
  destruct (truthy comment_list); [|done].
  destruct (iterate comment_list) as [items|] eqn:Hi; [|done]. cbn [mbind res_bind].
  destruct (parse_comments ∅ items) as [X|] eqn:Hp; [|done]. cbn [mbind res_bind].
  intros [= <-] Hn.
  destruct (parse_comments_strings _ _ _ Hp) as (comments & ->).
  destruct (parse_comments_spec comments ∅) as (X' & HX' & Hmem).
  rewrite HX' in Hp. injection Hp as ->.
  apply Hmem in Hn as [Hn|(comment & names & segs & Hcomment & Hnames & Hsplit & Hseg)];
    [set_solver|].
  destruct (split_spec names (py ", ") comma_space_nonempty) as (segs' & Hsplit' & Hjoin & Hnosep).
  assert (segs' = segs) as -> by congruence.
  apply elem_of_findall in Hnames as [Htok Hocc].
  assert (occurs_in n names) as Hn_names.
  { rewrite <-Hjoin. by apply occurs_in_join. }
  split; [|split].
  - eapply occurs_in_Forall; [done|]. by apply token_chars.
  - rewrite Forall_forall in Hnosep. by apply Hnosep.
  - exists results, first, comment_list, (map JStr comments), comment.
    repeat (split; [done|]). split.
    + apply list_elem_of_fmap. eauto.
    + by eapply occurs_in_trans.
Qed.

Lemma extracted_names_are_clean_witness :
  parse_authors_from_comments (record_of [py "_Alice Example_, _Dana Lee_"])
  = Ok (Some ({[ py "Alice Example" ]} ∪ {[ py "Dana Lee" ]})) ∧
  (Forall (λ c, name_char c = true) (py "Dana Lee") ∧
   ¬ occurs_in (py ", ") (py "Dana Lee") ∧
   ∃ results first comment_list items comment,
     get (record_of [py "_Alice Example_, _Dana Lee_"]) (py "results") = Ok results ∧
     getitem0 results = Ok first ∧
     get first (py "comment") = Ok comment_list ∧
     iterate comment_list = Ok items ∧
     JStr comment ∈ items ∧ occurs_in (py "Dana Lee") comment).
Proof.
  assert (H : parse_authors_from_comments (record_of [py "_Alice Example_, _Dana Lee_"])
              = Ok (Some ({[ py "Alice Example" ]} ∪ {[ py "Dana Lee" ]})))
    by (vm_compute; reflexivity).
  split; [exact H|].
  apply (extracted_names_are_clean _ _ (py "Dana Lee") H).
  apply elem_of_union_r, elem_of_singleton. reflexivity.
Defined.

(** X2: of the whole record the extraction reads only the value under
    [comment] inside the first entry of [results]: two records that agree
    there give the same answer, whatever their other keys, their later
    results and the other fields of the first result are. *)
Theorem only_first_comment_list_is_read d d' f f' rest rest' :
  assoc (py "results") d = Some (JList (JDict f :: rest)) →
  assoc (py "results") d' = Some (JList (JDict f' :: rest')) →
  assoc (py "comment") f = assoc (py "comment") f' →
  parse_authors_from_comments (JDict d) = parse_authors_from_comments (JDict d').
Proof.
  intros H H' Hc. unfold parse_authors_from_comments, get. rewrite H, H'.
  cbn [default from_option id mbind res_bind getitem0]. by rewrite Hc.
Qed.

Lemma only_first_comment_list_is_read_witness :
  parse_authors_from_comments
    (JDict [(py "results",
             JList [JDict [(py "comment", JList [JStr (py "_Alice Example_")])];
                    JDict [(py "comment", JList [JStr (py "_Dana Lee_")])]])])
  = parse_authors_from_comments
      (JDict [(py "count", JInt 1);
              (py "results",
               JList [JDict [(py "number", JInt 1);
                             (py "comment", JList [JStr (py "_Alice Example_")])]])]).
Proof.
  exact (only_first_comment_list_is_read
           [(py "results",
             JList [JDict [(py "comment", JList [JStr (py "_Alice Example_")])];
                    JDict [(py "comment", JList [JStr (py "_Dana Lee_")])]])]
           [(py "count", JInt 1);
            (py "results",
             JList [JDict [(py "number", JInt 1);
                           (py "comment", JList [JStr (py "_Alice Example_")])]])]
           [(py "comment", JList [JStr (py "_Alice Example_")])]
           [(py "number", JInt 1); (py "comment", JList [JStr (py "_Alice Example_")])]
           [JDict [(py "comment", JList [JStr (py "_Dana Lee_")])]] []
           eq_refl eq_refl eq_refl).
Defined.

(** X3: the loop over the comments accumulates a set, so the order of the
    comments and their repetitions do not matter: two comment lists with the
    same members give the same authors. *)
Theorem comment_order_is_immaterial authors (comments comments' : list str) :
  (∀ comment, comment ∈ comments ↔ comment ∈ comments') →
  parse_comments authors (map JStr comments) =
  parse_comments authors (map JStr comments').
Proof.
  intros Hsame.
  destruct (parse_comments_spec comments authors) as (X & -> & HX).
  destruct (parse_comments_spec comments' authors) as (X' & -> & HX').
  f_equal. apply set_eq. intros n. rewrite HX, HX'. by setoid_rewrite Hsame.
Qed.

Lemma comment_order_is_immaterial_witness :
  parse_comments ∅ (map JStr [py "_Alice Example_"; py "- Bob Carter (Jan 01 2020)"]) =
  parse_comments ∅ (map JStr [py "- Bob Carter (Jan 01 2020)"; py "_Alice Example_";
                              py "- Bob Carter (Jan 01 2020)"]).
Proof.
  apply (comment_order_is_immaterial ∅
           [py "_Alice Example_"; py "- Bob Carter (Jan 01 2020)"]
           [py "- Bob Carter (Jan 01 2020)"; py "_Alice Example_";
            py "- Bob Carter (Jan 01 2020)"]).
  intros comment. rewrite !elem_of_cons, !elem_of_nil. tauto.
Defined.

(** X4: the loop over the comments ends normally exactly when every comment
    is a string; any other item (a number, a nested list, null) makes
    [re.findall] raise [TypeError], whatever was collected before it. *)
Theorem comments_must_be_strings authors items :
  (Forall (λ x, ∃ s, x = JStr s) items ∧
   ∃ X, parse_comments authors items = Ok X) ∨
  (¬ Forall (λ x, ∃ s, x = JStr s) items ∧
   parse_comments authors items = Raise TypeError).
Proof.
  revert authors. induction items as [|x items IH]; intros authors.
  - left. split; [constructor|by exists authors].
  - cbn [parse_comments].
    assert ((∃ s, x = JStr s) ∨ ¬ (∃ s, x = JStr s)) as [[s ->]|Hx].
    { destruct x; try (right; by intros [? ?]). left. eauto. }
    + destruct (comment_names_spec s) as (l & -> & _). cbn [mbind res_bind].
      destruct (IH (authors ∪ list_to_set l)) as [[Hall HX]|[Hall HX]].
      * left. split; [constructor; eauto|done].
      * right. split; [|done]. by intros [_ ?]%Forall_cons.
    + right. split; [by intros [? _]%Forall_cons|].
      destruct x; try done. destruct Hx. eauto.
Qed.

(** X5: the pattern finds nothing in a text of fewer than five characters (a
    match has three and stands between two delimiters), and nothing in a
    text without an uppercase ASCII letter. *)
Theorem nothing_to_find text :
  (length text < 5)%nat ∨ Forall (λ c, is_upper c = false) text →
  findall text = [].
Proof.
  intros [Hlen|Hup]; [by apply findall_short|].
  destruct (findall text) as [|m ms] eqn:E; [done|exfalso].
  pose proof (findall_from_sound text [] 0%nat) as Hall.
  fold (findall text) in Hall. rewrite E in Hall.
  apply Forall_cons in Hall as [(b & a & Heq & Htok & Hctx) _].
  simpl in Heq.
  destruct Htok as (c & rest & -> & Hc & _).
  rewrite Heq in Hup. apply Forall_app in Hup as [_ Hup].
  apply Forall_app in Hup as [Hup _]. apply Forall_cons in Hup as [Hup _].
  congruence.
Qed.

Lemma nothing_to_find_witness :
  ((length (py "_Al_") < 5)%nat ∨ Forall (λ c, is_upper c = false) (py "_Al_")) ∧
  findall (py "_Al_") = [].
Proof.
  assert (H : (length (py "_Al_") < 5)%nat ∨ Forall (λ c, is_upper c = false) (py "_Al_"))
    by (left; vm_compute; lia).
  split; [exact H|]. exact (nothing_to_find (py "_Al_") H).
Defined.

(** X6: when the [comment] field of the first result is a string and not a
    list, the loop visits its characters one by one and finds no name in
    any: the answer is the empty set (or [None] for the empty string), not
    the names written in the string, and no error. *)
Theorem string_comment_yields_no_author d f rest s :
  assoc (py "results") d = Some (JList (JDict f :: rest)) →
  assoc (py "comment") f = Some (JStr s) →
  parse_authors_from_comments (JDict d) =
  Ok (if decide (s = []) then None else Some ∅).
Proof.
  intros Hr Hc. unfold parse_authors_from_comments, get. rewrite Hr.
  cbn [default from_option id mbind res_bind getitem0]. rewrite Hc.
  cbn [default from_option id mbind res_bind truthy iterate].
  case_decide as Hs.
  - by rewrite bool_decide_true.
  - rewrite bool_decide_false by done. cbn [negb].
    by rewrite parse_comments_chars.
Qed.

Lemma string_comment_yields_no_author_witness :
  parse_authors_from_comments
    (JDict [(py "results", JList [JDict [(py "comment", JStr (py "_Alice Example_"))]])])
  = Ok (Some ∅).
Proof.
  exact (string_comment_yields_no_author
           [(py "results", JList [JDict [(py "comment", JStr (py "_Alice Example_"))]])]
           [(py "comment", JStr (py "_Alice Example_"))] [] (py "_Alice Example_")
           eq_refl eq_refl).
Defined.

End extraction_properties.

(** ** Further properties of the builder *)

Section builder_properties.
Implicit Types (G : Graph) (u v a b n : str) (X : gset str).

Lemma parse_files_quiet fs dir_path file_list : ∀ G,
  fst (parse_files fs dir_path file_list G) = [].
Proof.
  induction file_list as [|f fl IH]; intros G; [done|].
  rewrite parse_files_cons.
  destruct (file_at fs (dir_path ++ f)); try done.
  destruct (parse_authors_from_comments j); try done.
  destruct (add_authors G a); try done.
Qed.

Lemma parse_files_same_files fs dir_path file_list file_list' G evs G' :
  (∀ f, f ∈ file_list ↔ f ∈ file_list') →
  parse_files fs dir_path file_list G = (evs, Ok G') →
  parse_files fs dir_path file_list' G = (evs, Ok G').
Proof.
  intros Hsame Hrun.
  destruct (parse_files_spec _ _ _ _ _ _ Hrun) as (-> & Hall & Hn & He).
  destruct (parse_files_total fs dir_path file_list' G) as [G'' Hrun'].
  { intros f Hf. apply Hall. by apply Hsame. }
  rewrite Hrun'. do 2 f_equal.
  destruct (parse_files_spec _ _ _ _ _ _ Hrun') as (_ & _ & Hn' & He').
  apply graph_eq.
  - intros n. rewrite Hn, Hn'. by setoid_rewrite Hsame.
  - intros a b. rewrite He, He'. by setoid_rewrite Hsame.
Qed.

Lemma getlast_app_singleton {A} (l : list A) x : getlast (l ++ [x]) = Ok x.
Proof. unfold getlast. by rewrite last_snoc. Qed.

Lemma getlast_elem_of (l : str) : l ≠ [] → ∃ c, getlast l = Ok c ∧ c ∈ l.
Proof.
  intros Hl. unfold getlast. destruct (last l) as [c|] eqn:E.
  - exists c. split; [done|]. apply last_Some in E as [l' ->]. set_solver.
  - by apply last_None in E.
Qed.

Lemma with_slash_plain (dir_path : str) :
  dir_path ≠ [] → 47 ∉ dir_path → with_slash dir_path = Ok (dir_path ++ py "/").
Proof.
  intros Hne Hno. destruct (getlast_elem_of dir_path Hne) as (c & Hc & Hin).
  unfold with_slash. rewrite Hc. cbn [mbind res_bind].
  rewrite decide_True; [done|]. intros ->. done.
Qed.

Lemma split_from_first (top : str) : ∀ cur rest,
  47 ∉ top →
  split_from [47] cur (top ++ 47 :: rest) 0 =
  (rev cur ++ top) :: split_from [47] [] rest 0.
Proof.
  induction top as [|c top IH]; intros cur rest Htop.
  - simpl. by rewrite app_nil_r.
  - cbn [app split_from startswith].
    replace (c =? 47) with false by (symmetry; apply N.eqb_neq; set_solver).
    cbn [andb]. rewrite IH by set_solver. simpl. by rewrite <-app_assoc.
Qed.

Lemma save_path_top top rest filename :
  47 ∉ top →
  save_path (top ++ 47 :: rest) filename = Ok (top ++ py "/" ++ filename ++ py ".json").
Proof.
  intros Htop. unfold save_path, split. change (py "/") with [47].
  cbn [mbind res_bind]. by rewrite split_from_first.
Qed.

Lemma data_no_slash : 47 ∉ py "data".
Proof.
  vm_compute. intros H.
  repeat (apply elem_of_cons in H as [H|H]; [done|]). by apply elem_of_nil in H.
Qed.

(** The document of a saved graph has no [results] key. *)
Lemma node_link_data_is_no_record G :
  parse_authors_from_comments (node_link_data G) = Raise TypeError.
Proof. reflexivity. Qed.

Lemma returned_graph_eq (r : io Graph) :
  match outcome r with Ok _ => True | Raise _ => False end →
  r = (events_of r, Ok (returned_graph r)).
Proof. by destruct r as [evs [G|e]]. Qed.

(** X7: whatever the directory holds, a graph that the builder returns is
    symmetric, its edges join nodes of the graph, and it has no isolated
    node: every node has an edge to another node. *)
Theorem built_graph_invariants fs dir_path save filename evs G :
  build_graph_from_directory fs dir_path save filename = (evs, Ok G) →
  symmetric G ∧
  (∀ a b, has_edge G a b → has_node G a ∧ has_node G b) ∧
  (∀ n, has_node G n → ∃ m, m ≠ n ∧ has_edge G n m).
Proof.
  intros Hbuild. split; [by eapply built_graph_symmetric|].
  apply build_graph_inv in Hbuild as (d & names & _ & _ & Hrun & _).
  destruct (parse_files_spec _ _ _ _ _ _ Hrun) as (_ & _ & Hn & He).
  assert (Hempty : ∀ a b, ¬ has_edge (∅ : Graph) a b).
  { intros a b. unfold has_edge. rewrite lookup_empty. set_solver. }
  assert (Hnone : ∀ n, ¬ has_node (∅ : Graph) n).
  { intros n [? Hn0]. by rewrite lookup_empty in Hn0. }
  split.
  - intros a b [?%Hempty|(f & X & Hf & Hex & Ha & Hb & Hab)]%He; [done|].
    split; apply Hn; right; exists f, X; eauto 10.
  - intros n [?%Hnone|(f & X & Hf & Hex & HnX & m & HmX & Hmn)]%Hn; [done|].
    exists m. split; [done|]. apply He. right. exists f, X. auto.
Qed.

Lemma built_graph_invariants_witness :
  build_graph_from_directory example_fs (py "data/sequences") false
    (py "comments_authors_graph") = ([], Ok example_graph) ∧
  (symmetric example_graph ∧
   (∀ a b, has_edge example_graph a b →
           has_node example_graph a ∧ has_node example_graph b) ∧
   (∀ n, has_node example_graph n → ∃ m, m ≠ n ∧ has_edge example_graph n m)).
Proof.
  assert (H : build_graph_from_directory example_fs (py "data/sequences") false
                (py "comments_authors_graph") = ([], Ok example_graph))
    by (apply returns_quietly_eq; vm_compute; reflexivity).
  split; [exact H|].
  exact (built_graph_invariants _ _ _ _ _ _ H).
Defined.

(** X8: of the listing of the directory only the names that end in
    [.json] count, and only as a set: two listings with the same such names
    (in any order, with any other names besides) give the same run and the
    same graph. *)
Theorem build_depends_on_json_names fs names names' dir_path save filename evs G :
  (∀ f, f ∈ json_files names ↔ f ∈ json_files names') →
  build_graph_from_directory (with_listing fs names) dir_path save filename = (evs, Ok G) →
  build_graph_from_directory (with_listing fs names') dir_path save filename = (evs, Ok G).
Proof.
  intros Hsame Hbuild.
  apply build_graph_inv in Hbuild as (d & names0 & Hd & [= <-] & Hrun & Hsave).
  rewrite build_graph_run, Hd. cbn [listdir with_listing].
  rewrite parse_files_with_listing in *.
  rewrite (parse_files_same_files fs d (json_files names) (json_files names') ∅ [] G Hsame Hrun).
  by rewrite io_bind_quiet.
Qed.

Lemma build_depends_on_json_names_witness :
  let names := [py "A000001.json"; py "A000003.json"; py "notes.txt"] in
  let names' := [py "README"; py "A000003.json"; py "A000001.json"; py "A000003.json"] in
  let r := build_graph_from_directory (with_listing example_fs names)
             (py "data/sequences") false (py "g") in
  (∀ f, f ∈ json_files names ↔ f ∈ json_files names') ∧
  r = ([], Ok (returned_graph r)) ∧
  build_graph_from_directory (with_listing example_fs names')
    (py "data/sequences") false (py "g") = ([], Ok (returned_graph r)).
Proof.
  intros names names' r.
  assert (Hsame : ∀ f, f ∈ json_files names ↔ f ∈ json_files names').
  { intros f.
    change (json_files names) with [py "A000001.json"; py "A000003.json"].
    change (json_files names') with [py "A000003.json"; py "A000001.json"; py "A000003.json"].
    rewrite !elem_of_cons, !elem_of_nil. tauto. }
  assert (H : r = ([], Ok (returned_graph r)))
    by (apply returns_quietly_eq; vm_compute; reflexivity).
  split; [exact Hsame|]. split; [exact H|].
  exact (build_depends_on_json_names example_fs names names' (py "data/sequences") false
           (py "g") [] (returned_graph r) Hsame H).
Defined.

(** X9: the builder has no error handling of its own: one listed [.json]
    file that cannot be opened, is not JSON, or is a record on which the
    extraction raises, makes the whole build raise, and nothing is printed
    or written, even with [save] set. *)
Theorem bad_record_aborts_build fs dir_path save filename d names f :
  with_slash dir_path = Ok d → listdir fs d = Some names →
  f ∈ json_files names →
  (∀ raw_data authors, file_at fs (d ++ f) = Document raw_data →
                       parse_authors_from_comments raw_data ≠ Ok authors) →
  ∃ e, build_graph_from_directory fs dir_path save filename = ([], Raise e).
Proof.
  intros Hd Hnames Hf Hbad. rewrite build_graph_run, Hd, Hnames.
  pose proof (parse_files_quiet fs d (json_files names) ∅) as Hquiet.
  destruct (parse_files fs d (json_files names) ∅) as [evs [G|e]] eqn:Hrun.
  - destruct (parse_files_spec _ _ _ _ _ _ Hrun) as (_ & Hall & _).
    destruct (Hall f Hf) as (raw & authors & Hfile & Hparse).
    by destruct (Hbad raw authors Hfile).
  - simpl in Hquiet. subst evs. by exists e.
Qed.

Lemma bad_record_aborts_build_witness :
  let fs := with_listing example_fs [py "A000001.json"; py "A000009.json"] in
  with_slash (py "data/sequences") = Ok (py "data/sequences/") ∧
  listdir fs (py "data/sequences/") = Some [py "A000001.json"; py "A000009.json"] ∧
  py "A000009.json" ∈ json_files [py "A000001.json"; py "A000009.json"] ∧
  ∃ e, build_graph_from_directory fs (py "data/sequences") true (py "g") = ([], Raise e).
Proof.
  intros fs.
  assert (Hin : py "A000009.json" ∈ json_files [py "A000001.json"; py "A000009.json"]).
  { change (json_files [py "A000001.json"; py "A000009.json"])
      with [py "A000001.json"; py "A000009.json"].
    apply elem_of_cons. right. apply elem_of_cons. by left. }
  split; [reflexivity|]. split; [reflexivity|]. split; [exact Hin|].
  apply (bad_record_aborts_build fs (py "data/sequences") true (py "g")
           (py "data/sequences/") [py "A000001.json"; py "A000009.json"]
           (py "A000009.json") eq_refl eq_refl Hin).
  intros raw_data authors Hfile. vm_compute in Hfile. discriminate Hfile.
Defined.

(** X10: a directory path is used with a final slash whether or not it is
    given with one, so both spellings run alike; the empty path raises
    [IndexError] at [dir_path[-1]] before the directory is listed. *)
Theorem trailing_slash_is_optional fs (dir_path : str) (c : char) save filename :
  getlast dir_path = Ok c → c ≠ 47 →
  build_graph_from_directory fs (dir_path ++ py "/") save filename =
  build_graph_from_directory fs dir_path save filename ∧
  build_graph_from_directory fs [] save filename = ([], Raise IndexError).
Proof.
  intros Hlast Hc. split; [|done].
  rewrite !build_graph_run.
  assert (with_slash dir_path = Ok (dir_path ++ py "/")) as ->.
  { unfold with_slash. rewrite Hlast. cbn [mbind res_bind]. by rewrite decide_True. }
  assert (with_slash (dir_path ++ py "/") = Ok (dir_path ++ py "/")) as ->.
  { unfold with_slash. change (py "/") with [47]. rewrite getlast_app_singleton.
    cbn [mbind res_bind]. by rewrite decide_False by (intros H; by apply H). }
  done.
Qed.

Lemma trailing_slash_is_optional_witness :
  getlast (py "data/sequences") = Ok 115 ∧
  (build_graph_from_directory example_fs (py "data/sequences" ++ py "/") true (py "g") =
   build_graph_from_directory example_fs (py "data/sequences") true (py "g") ∧
   build_graph_from_directory example_fs [] true (py "g") = ([], Raise IndexError)).
Proof.
  assert (H : getlast (py "data/sequences") = Ok 115) by reflexivity.
  split; [exact H|].
  apply (trailing_slash_is_optional example_fs (py "data/sequences") 115 true (py "g") H).
  lia.
Defined.

(** X11: with [save] set the builder does what it does without it, and then
    writes the node-link document of the graph to one file, named
    [filename].json and placed in the first component of the directory path
    (beside the directory, not inside it, when the path has two
    components); if that file cannot be created the build raises [OSError]
    after all the records were read. *)
Theorem save_writes_beside_top_directory fs dir_path top rest filename G :
  with_slash dir_path = Ok (top ++ 47 :: rest) → 47 ∉ top →
  build_graph_from_directory fs dir_path false filename = ([], Ok G) →
  build_graph_from_directory fs dir_path true filename =
  if creatable fs (top ++ py "/" ++ filename ++ py ".json")
  then ([WriteFile (top ++ py "/" ++ filename ++ py ".json") (node_link_data G)], Ok G)
  else ([], Raise OSError).
Proof.
  intros Hd Htop Hbuild.
  apply build_graph_inv in Hbuild as (d & names & Hd' & Hnames & Hrun & _).
  rewrite Hd in Hd'. injection Hd' as <-.
  rewrite build_graph_run, Hd, Hnames, Hrun, io_bind_quiet.
  unfold save_graph. by rewrite save_path_top.
Qed.

Lemma save_writes_beside_top_directory_witness :
  with_slash (py "data/sequences") = Ok (py "data" ++ 47 :: py "sequences/") ∧
  build_graph_from_directory example_fs (py "data/sequences") false
    (py "comments_authors_graph") = ([], Ok example_graph) ∧
  build_graph_from_directory example_fs (py "data/sequences") true
    (py "comments_authors_graph") =
  if creatable example_fs (py "data" ++ py "/" ++ py "comments_authors_graph" ++ py ".json")
  then ([WriteFile (py "data" ++ py "/" ++ py "comments_authors_graph" ++ py ".json")
           (node_link_data example_graph)], Ok example_graph)
  else ([], Raise OSError).
Proof.
  assert (H : build_graph_from_directory example_fs (py "data/sequences") false
                (py "comments_authors_graph") = ([], Ok example_graph))
    by (apply returns_quietly_eq; vm_compute; reflexivity).
  split; [reflexivity|]. split; [exact H|].
  exact (save_writes_beside_top_directory example_fs (py "data/sequences") (py "data")
           (py "sequences/") (py "comments_authors_graph") example_graph
           eq_refl data_no_slash H).
Defined.

(** X12: the graph only grows with the directory: when a listing is
    extended by further files, every node and every edge of the graph built
    from the shorter listing is in the graph built from the longer one. *)
Theorem more_files_never_remove fs names more dir_path save filename evs evs' G G' :
  build_graph_from_directory (with_listing fs names) dir_path save filename = (evs, Ok G) →
  build_graph_from_directory (with_listing fs (names ++ more)) dir_path save filename
    = (evs', Ok G') →
  (∀ n, has_node G n → has_node G' n) ∧
  (∀ a b, has_edge G a b → has_edge G' a b).
Proof.
  intros (d & ? & Hd & [= <-] & Hrun & _)%build_graph_inv
         (d' & ? & Hd' & [= <-] & Hrun' & _)%build_graph_inv.
  rewrite Hd in Hd'. injection Hd' as <-.
  rewrite parse_files_with_listing in *.
  destruct (parse_files_spec _ _ _ _ _ _ Hrun) as (_ & _ & Hn & He).
  destruct (parse_files_spec _ _ _ _ _ _ Hrun') as (_ & _ & Hn' & He').
  assert (Hsub : ∀ f, f ∈ json_files names → f ∈ json_files (names ++ more)).
  { intros f. unfold json_files. rewrite !list_elem_of_filter, elem_of_app. tauto. }
  split.
  - intros n [?|(f & X & Hf & Hrest)]%Hn; apply Hn'; [by left|right].
    exists f, X. auto.
  - intros a b [?|(f & X & Hf & Hrest)]%He; apply He'; [by left|right].
    exists f, X. auto.
Qed.

Lemma more_files_never_remove_witness :
  let r := build_graph_from_directory (with_listing example_fs [py "A000001.json"])
             (py "data/sequences") false (py "g") in
  let r' := build_graph_from_directory
              (with_listing example_fs ([py "A000001.json"] ++ [py "A000003.json"]))
              (py "data/sequences") false (py "g") in
  r = ([], Ok (returned_graph r)) ∧ r' = ([], Ok (returned_graph r')) ∧
  ((∀ n, has_node (returned_graph r) n → has_node (returned_graph r') n) ∧
   (∀ a b, has_edge (returned_graph r) a b → has_edge (returned_graph r') a b)).
Proof.
  intros r r'.
  assert (H : r = ([], Ok (returned_graph r)))
    by (apply returns_quietly_eq; vm_compute; reflexivity).
  assert (H' : r' = ([], Ok (returned_graph r')))
    by (apply returns_quietly_eq; vm_compute; reflexivity).
  split; [exact H|]. split; [exact H'|].
  exact (more_files_never_remove example_fs [py "A000001.json"] [py "A000003.json"]
           (py "data/sequences") false (py "g") [] [] (returned_graph r) (returned_graph r')
           H H').
Defined.

(** X13: for a directory named by a single path component the saved graph
    lands inside the directory itself, under a name that ends in [.json];
    the next build of that directory then reads the graph file as a record
    and raises, since the saved document (as the codec is modelled) has no
    [results] entry. *)
Theorem saved_graph_breaks_rebuild fs (dir_path : str) filename evs G :
  dir_path ≠ [] → 47 ∉ dir_path →
  build_graph_from_directory fs dir_path true filename = (evs, Ok G) →
  evs = [WriteFile (dir_path ++ py "/" ++ filename ++ py ".json") (node_link_data G)] ∧
  ∀ fs' names save' filename',
    listdir fs' (dir_path ++ py "/") = Some names →
    filename ++ py ".json" ∈ names →
    file_at fs' (dir_path ++ py "/" ++ filename ++ py ".json")
      = Document (node_link_data G) →
    ∃ e, build_graph_from_directory fs' dir_path save' filename' = ([], Raise e).
Proof.
  intros Hne Hno Hbuild. pose proof (with_slash_plain dir_path Hne Hno) as Hd.
  split.
  - apply build_graph_inv in Hbuild as (d & names & Hd' & _ & _ & Hsave).
    rewrite Hd in Hd'. injection Hd' as Hd'.
    assert (Hpath : save_path d filename = Ok (dir_path ++ py "/" ++ filename ++ py ".json")).
    { rewrite <-Hd'. exact (save_path_top dir_path [] filename Hno). }
    unfold save_graph in Hsave. rewrite Hpath in Hsave.
    destruct (creatable fs _); congruence.
  - intros fs' names save' filename' Hnames Hin Hfile.
    rewrite build_graph_run, Hd, Hnames.
    pose proof (parse_files_quiet fs' (dir_path ++ py "/") (json_files names) ∅) as Hquiet.
    destruct (parse_files fs' (dir_path ++ py "/") (json_files names) ∅)
      as [evs' [G'|e]] eqn:Hrun.
    + destruct (parse_files_spec _ _ _ _ _ _ Hrun) as (_ & Hall & _).
      destruct (Hall (filename ++ py ".json")) as (raw & authors & Hraw & Hparse).
      { unfold json_files. apply list_elem_of_filter. split; [|done].
        apply endswith_app. }
      rewrite <-app_assoc in Hraw. rewrite Hfile in Hraw. injection Hraw as <-.
      by rewrite node_link_data_is_no_record in Hparse.
    + simpl in Hquiet. subst evs'. by exists e.
Qed.

Lemma saved_graph_breaks_rebuild_witness :
  let r := build_graph_from_directory example_flat_fs (py "sequences") true (py "graph") in
  let G := returned_graph r in
  r = (events_of r, Ok G) ∧
  events_of r = [WriteFile (py "sequences" ++ py "/" ++ py "graph" ++ py ".json")
                   (node_link_data G)] ∧
  ∀ fs' names save' filename',
    listdir fs' (py "sequences" ++ py "/") = Some names →
    py "graph" ++ py ".json" ∈ names →
    file_at fs' (py "sequences" ++ py "/" ++ py "graph" ++ py ".json")
      = Document (node_link_data G) →
    ∃ e, build_graph_from_directory fs' (py "sequences") save' filename' = ([], Raise e).
Proof.
  intros r G.
  assert (H : r = (events_of r, Ok G)).
  { apply returned_graph_eq. vm_compute. exact I. }
  split; [exact H|].
  refine (saved_graph_breaks_rebuild example_flat_fs (py "sequences") (py "graph")
            (events_of r) G _ _ H).
  - done.
  - vm_compute. intros Hin.
    repeat (apply elem_of_cons in Hin as [Hin|Hin]; [done|]). by apply elem_of_nil in Hin.
Defined.

End builder_properties.

(** ** The loader with printing, and [main] *)

Section program_properties.
Implicit Types (G : Graph) (s name : str).

Lemma outcome_bind {A B} (m : io A) (f : A → io B) :
  outcome (m ≫= f) =
  match outcome m with
  | Ok a => outcome (f a)
  | Raise e => Raise e
  end.
Proof.
  unfold outcome, mbind, io_bind. destruct m as [evs [a|e]]; [|done].
  simpl. by destruct (f a).
Qed.

Lemma events_bind {A B} (m : io A) (f : A → io B) :
  events_of (m ≫= f) =
  events_of m ++ match outcome m with
                 | Ok a => events_of (f a)
                 | Raise _ => []
                 end.
Proof.
  unfold events_of, outcome, mbind, io_bind. destruct m as [evs [a|e]].
  - simpl. by destruct (f a).
  - simpl. by rewrite app_nil_r.
Qed.

Lemma io_eta {A} (m : io A) a : outcome m = Ok a → m = (events_of m, Ok a).
Proof. destruct m as [evs r]. simpl. by intros ->. Qed.

Lemma split_from_no_slash (name : str) : ∀ cur,
  47 ∉ name → split_from [47] cur name 0 = [rev cur ++ name].
Proof.
  induction name as [|c name IH]; intros cur Hname.
  - simpl. by rewrite app_nil_r.
  - cbn [split_from startswith].
    replace (c =? 47) with false by (symmetry; apply N.eqb_neq; set_solver).
    cbn [andb]. rewrite IH by set_solver. simpl. by rewrite <-app_assoc.
Qed.

Lemma split_from_last (s : str) : ∀ cur name,
  47 ∉ name → getlast (split_from [47] cur (s ++ 47 :: name) 0) = Ok name.
Proof.
  induction s as [|c s IH]; intros cur name Hname.
  - simpl. by rewrite split_from_no_slash.
  - cbn [app split_from startswith].
    destruct (c =? 47); cbn [andb length Nat.sub].
    + pose proof (split_from_nonempty [47] (s ++ 47 :: name) [] 0) as Hne.
      specialize (IH [] name Hname).
      destruct (split_from [47] [] (s ++ 47 :: name) 0); done.
    + by apply IH.
Qed.

Lemma print_contents_run dir name raw_data :
  47 ∉ name →
  print_contents (dir ++ 47 :: name) raw_data =
  ([ Print (Text (py "File " ++ name ++ py " contents:"));
     Print (Text []);
     Print (JsonDump raw_data);
     Print (Text []);
     Print (Text (py "The 'json' Python module returns a dictionary, which can be confirmed by invoking the 'type' function on the loaded data: "
                  ++ type_name raw_data ++ py ".")) ]
   ++ match raw_data with
      | JDict d => [Print (DictKeys (map fst d))]
      | _ => []
      end,
   match raw_data with
   | JDict _ => Ok tt
   | _ => Raise AttributeError
   end).
Proof.
  intros Hname. unfold print_contents, split. change (py "/") with [47].
  unfold lift. rewrite io_bind_quiet.
  rewrite split_from_last by done. rewrite io_bind_quiet.
  by destruct raw_data.
Qed.

(** X14: called with [print_content], the loader heads its output with the
    last component of the path, writes no file, and returns the document
    only when it is a JSON object: for any other JSON value (a list, a
    string, a number, null) the call [raw_data.keys()] raises
    [AttributeError] after the content was printed. *)
Theorem load_json_printing fs dir name raw_data :
  47 ∉ name →
  file_at fs (dir ++ 47 :: name) = Document raw_data →
  head (events_of (load_json fs (dir ++ 47 :: name) true))
    = Some (Print (Text (py "File " ++ name ++ py " contents:"))) ∧
  (∀ ev, ev ∈ events_of (load_json fs (dir ++ 47 :: name) true) → is_write ev = false) ∧
  outcome (load_json fs (dir ++ 47 :: name) true) =
    match raw_data with
    | JDict _ => Ok raw_data
    | _ => Raise AttributeError
    end.
Proof.
  intros Hname Hfile. unfold load_json. rewrite Hfile.
  rewrite print_contents_run by done.
  destruct raw_data; (split; [done|]); (split; [|done]);
    intros ev Hev; cbn in Hev;
    repeat (apply elem_of_cons in Hev as [->|Hev]; [done|]);
    by apply elem_of_nil in Hev.
Qed.

Lemma sample_name_no_slash : 47 ∉ py "A000001.json".
Proof.
  vm_compute. intros H.
  repeat (apply elem_of_cons in H as [H|H]; [done|]). by apply elem_of_nil in H.
Qed.

Lemma load_json_printing_witness :
  (47 ∉ py "A000001.json") ∧
  file_at example_fs (py "data/sequences" ++ 47 :: py "A000001.json")
    = Document (record_of [py "_Alice Example_, _Dana Lee_"]) ∧
  (head (events_of (load_json example_fs (py "data/sequences" ++ 47 :: py "A000001.json") true))
     = Some (Print (Text (py "File " ++ py "A000001.json" ++ py " contents:"))) ∧
   (∀ ev, ev ∈ events_of (load_json example_fs
                            (py "data/sequences" ++ 47 :: py "A000001.json") true) →
          is_write ev = false) ∧
   outcome (load_json example_fs (py "data/sequences" ++ 47 :: py "A000001.json") true)
     = Ok (record_of [py "_Alice Example_, _Dana Lee_"])).
Proof.
  split; [exact sample_name_no_slash|]. split; [reflexivity|].
  exact (load_json_printing example_fs (py "data/sequences") (py "A000001.json")
           (record_of [py "_Alice Example_, _Dana Lee_"]) sample_name_no_slash eq_refl).
Defined.

Lemma load_json_ext fs fs' file_path print_content :
  file_at fs' file_path = file_at fs file_path →
  load_json fs' file_path print_content = load_json fs file_path print_content.
Proof. intros H. unfold load_json. by rewrite H. Qed.

Lemma sample_path_split : sample_path = py "data/sequences" ++ 47 :: py "A000001.json".
Proof. reflexivity. Qed.

(** The first step of [main]: loading the sample file, with printing. *)
Lemma load_sample_run fs :
  (∀ ev, ev ∈ events_of (load_json fs sample_path true) → is_write ev = false) ∧
  outcome (load_json fs sample_path true) =
    match file_at fs sample_path with
    | Unopenable => Raise UnboundLocalError
    | Unparsable => Raise ValueError
    | Document (JDict d) => Ok (JDict d)
    | Document _ => Raise AttributeError
    end.
Proof.
  destruct (file_at fs sample_path) as [| |raw] eqn:Hfile.
  - unfold load_json. rewrite Hfile. split; [|done]. by intros ev ?%elem_of_nil.
  - unfold load_json. rewrite Hfile. split; [|done]. by intros ev ?%elem_of_nil.
  - unfold load_json. rewrite Hfile, sample_path_split.
    rewrite print_contents_run by exact sample_name_no_slash.
    destruct raw; (split; [|done]);
      intros ev Hev; cbn in Hev;
      repeat (apply elem_of_cons in Hev as [->|Hev]; [done|]);
      by apply elem_of_nil in Hev.
Qed.

Lemma falsy_has_no_first results :
  truthy results = false →
  ∃ e, getitem0 results = Raise e ∧ e ∈ [TypeError; IndexError; KeyError].
Proof.
  destruct results as [|b|z|f|s|l|d]; simpl; intros H.
  - exists TypeError. split; [done|set_solver].
  - exists TypeError. split; [done|set_solver].
  - exists TypeError. split; [done|set_solver].
  - exists TypeError. split; [done|set_solver].
  - destruct s; [|done]. exists IndexError. split; [done|set_solver].
  - destruct l; [|done]. exists IndexError. split; [done|set_solver].
  - exists KeyError. split; [done|set_solver].
Qed.

(** Membership in a run's events, for runs that only print. *)
Ltac only_prints Hw :=
  let ev := fresh "ev" in
  let Hev := fresh "Hev" in
  intros ev Hev;
  repeat (apply elem_of_app in Hev as [Hev|Hev]);
  try (by apply elem_of_nil in Hev);
  try (by apply list_elem_of_singleton in Hev as ->);
  by apply Hw.

(** X15: the guard [if results:] of [main] protects only the first use of
    [results[0]]: when the sample file has no results (the key is absent,
    or null, or an empty list), [main] prints that no results section was
    found and then raises at the second, unguarded [results[0]], before any
    graph is built, loaded or written. *)
Theorem main_stops_without_results fs build_graph file results :
  outcome (load_json fs sample_path true) = Ok file →
  get file (py "results") = Ok results →
  truthy results = false →
  Print (Text no_results_message) ∈ events_of (main fs build_graph) ∧
  (∀ ev, ev ∈ events_of (main fs build_graph) → is_write ev = false) ∧
  ∃ e, outcome (main fs build_graph) = Raise e ∧ e ∈ [TypeError; IndexError; KeyError].
Proof.
  intros Hfile Hresults Hfalsy.
  destruct (falsy_has_no_first results Hfalsy) as (e & Hfirst & He).
  destruct (load_sample_run fs) as [Hw _].
  unfold main.
  repeat (rewrite ?events_bind, ?outcome_bind;
          cbn [outcome events_of fst snd print lift]; rewrite ?Hfile, ?Hresults, ?Hfalsy, ?Hfirst).
  split; [|split].
  - rewrite !elem_of_app, !elem_of_cons. tauto.
  - only_prints Hw.
  - by exists e.
Qed.

Lemma main_stops_without_results_witness :
  outcome (load_json example_no_results_fs sample_path true)
    = Ok (JDict [(py "count", JInt 0); (py "results", JNull)]) ∧
  (Print (Text no_results_message) ∈ events_of (main example_no_results_fs (py "True")) ∧
   (∀ ev, ev ∈ events_of (main example_no_results_fs (py "True")) → is_write ev = false) ∧
   ∃ e, outcome (main example_no_results_fs (py "True")) = Raise e ∧
        e ∈ [TypeError; IndexError; KeyError]).
Proof.
  assert (H : outcome (load_json example_no_results_fs sample_path true)
              = Ok (JDict [(py "count", JInt 0); (py "results", JNull)]))
    by (vm_compute; reflexivity).
  split; [exact H|].
  exact (main_stops_without_results example_no_results_fs (py "True")
           (JDict [(py "count", JInt 0); (py "results", JNull)]) JNull
           H eq_refl eq_refl).
Defined.

(** X16: [main] needs the sample file in both modes, also when it only has
    to load a saved graph: unless [data/sequences/A000001.json] holds a JSON
    object, [main] raises (the unbound local of the loader's handler for a
    file that does not open, [ValueError] for one that is not JSON,
    [AttributeError] for a JSON value that is not an object) and writes
    nothing. *)
Theorem main_needs_sample_object fs build_graph :
  (∀ d, file_at fs sample_path ≠ Document (JDict d)) →
  (∀ ev, ev ∈ events_of (main fs build_graph) → is_write ev = false) ∧
  ∃ e, outcome (main fs build_graph) = Raise e ∧
       e ∈ [UnboundLocalError; ValueError; AttributeError].
Proof.
  intros Hno. destruct (load_sample_run fs) as [Hw Ho].
  assert (∃ e, outcome (load_json fs sample_path true) = Raise e ∧
               e ∈ [UnboundLocalError; ValueError; AttributeError]) as (e & He & Hin).
  { rewrite Ho. destruct (file_at fs sample_path) as [| |raw] eqn:E.
    - exists UnboundLocalError. split; [done|set_solver].
    - exists ValueError. split; [done|set_solver].
    - destruct raw; try (exists AttributeError; split; [done|set_solver]).
      by destruct (Hno d). }
  unfold main.
  repeat (rewrite ?events_bind, ?outcome_bind;
          cbn [outcome events_of fst snd print lift]; rewrite ?He).
  split; [|by exists e].
  only_prints Hw.
Qed.

Lemma main_needs_sample_object_witness :
  file_at example_saved_fs sample_path = Unopenable ∧
  ((∀ ev, ev ∈ events_of (main example_saved_fs (py "False")) → is_write ev = false) ∧
   ∃ e, outcome (main example_saved_fs (py "False")) = Raise e ∧
        e ∈ [UnboundLocalError; ValueError; AttributeError]).
Proof.
  assert (H : file_at example_saved_fs sample_path = Unopenable) by reflexivity.
  split; [exact H|].
  apply (main_needs_sample_object example_saved_fs (py "False")).
  intros d Hd. rewrite H in Hd. discriminate Hd.
Defined.

Lemma sequences_dir_slash : with_slash sequences_dir = Ok (py "data" ++ 47 :: py "sequences/").
Proof. reflexivity. Qed.

(** X17: the two modes of [main] agree on the graph file: a run in build
    mode that ends normally has written, as its last action, the document
    of a graph at [data/comments_authors_graph.json], and on any file
    system that holds this document there and the same sample file, a run
    in load mode ends normally too (decoding as the codec is modelled). *)
Theorem main_build_then_load fs evs :
  main fs (py "True") = (evs, Ok tt) →
  ∃ G,
    last evs = Some (WriteFile graph_path (node_link_data G)) ∧
    ∀ fs',
      file_at fs' sample_path = file_at fs sample_path →
      file_at fs' graph_path = Document (node_link_data G) →
      outcome (main fs' (py "False")) = Ok tt.
Proof.
  intros Hmain.
  assert (Ho : outcome (main fs (py "True")) = Ok tt) by (by rewrite Hmain).
  assert (Hev : events_of (main fs (py "True")) = evs) by (by rewrite Hmain).
  clear Hmain. unfold main in Ho, Hev.
  rewrite decide_True in Ho, Hev by done.
  rewrite outcome_bind in Ho. cbn [outcome snd print] in Ho.
  rewrite outcome_bind in Ho.
  destruct (outcome (load_json fs sample_path true)) as [file|] eqn:Hfile; [|done].
  rewrite outcome_bind in Ho. cbn [outcome snd print] in Ho.
  rewrite outcome_bind in Ho. cbn [outcome snd lift] in Ho.
  destruct (get file (py "results")) as [results|] eqn:Hresults; [|done].
  rewrite outcome_bind in Ho.
  destruct (truthy results) eqn:Htruthy.
  2:{ cbn [outcome snd print] in Ho. rewrite outcome_bind in Ho.
      cbn [outcome snd print] in Ho. rewrite outcome_bind in Ho.
      cbn [outcome snd lift] in Ho.
      destruct (falsy_has_no_first results Htruthy) as (e & Hfirst & _).
      by rewrite Hfirst in Ho. }
  rewrite outcome_bind in Ho. cbn [outcome snd lift] in Ho.
  destruct (getitem0 results) as [first|] eqn:Hfirst; [|done].
  cbn [outcome snd print] in Ho.
  rewrite outcome_bind in Ho. cbn [outcome snd print] in Ho.
  rewrite outcome_bind in Ho. cbn [outcome snd lift] in Ho.
  rewrite outcome_bind in Ho. cbn [outcome snd lift] in Ho.
  destruct (get first (py "comment")) as [comment_list|] eqn:Hcomment; [|done].
  rewrite outcome_bind in Ho.
  assert (Hbranch : outcome (if truthy comment_list then print (JsonDump comment_list)
                             else print (Text no_comments_message)) = Ok tt)
    by (by destruct (truthy comment_list)).
  rewrite Hbranch in Ho.
  do 3 (rewrite outcome_bind in Ho; cbn [outcome snd print] in Ho).
  rewrite outcome_bind in Ho.
  destruct (build_graph_from_directory fs sequences_dir true default_filename)
    as [evs_b [G|]] eqn:Hbuild; [|done].
  exists G.
  pose proof (built_graph_symmetric _ _ _ _ _ _ Hbuild) as Hsym.
  assert (evs_b = [WriteFile graph_path (node_link_data G)]) as ->.
  { apply build_graph_inv in Hbuild as (d & names & Hd & _ & _ & Hsave).
    rewrite sequences_dir_slash in Hd. injection Hd as Hd.
    assert (Hpath : save_path d default_filename = Ok graph_path).
    { rewrite <-Hd.
      exact (save_path_top (py "data") (py "sequences/") default_filename data_no_slash). }
    unfold save_graph in Hsave. rewrite Hpath in Hsave.
    destruct (creatable fs graph_path); congruence. }
  split.
  - rewrite <-Hev.
    repeat (rewrite ?events_bind, ?outcome_bind; cbn [outcome events_of fst snd print lift];
            rewrite ?Hfile, ?Hresults, ?Hfirst, ?Hcomment, ?Htruthy, ?Hbranch, ?Hbuild).
    cbn [outcome events_of fst snd mret io_ret].
    rewrite app_nil_r, !app_assoc. by rewrite last_snoc.
  - intros fs' Hsample Hgraph. unfold main.
    rewrite decide_False by done.
    rewrite (load_json_ext fs fs' _ _ Hsample).
    repeat (rewrite outcome_bind; cbn [outcome snd print lift];
            rewrite ?Hfile, ?Hresults, ?Hfirst, ?Hcomment, ?Htruthy, ?Hbranch).
    unfold load_json_graph. rewrite Hgraph. unfold lift, node_link_data.
    rewrite (decode_document G (nodes G) (edges G)) by done.
    done.
Qed.

Lemma main_build_then_load_witness :
  main example_fs (py "True") = (events_of (main example_fs (py "True")), Ok tt) ∧
  ∃ G,
    last (events_of (main example_fs (py "True")))
      = Some (WriteFile graph_path (node_link_data G)) ∧
    ∀ fs',
      file_at fs' sample_path = file_at example_fs sample_path →
      file_at fs' graph_path = Document (node_link_data G) →
      outcome (main fs' (py "False")) = Ok tt.
Proof.
  assert (H : main example_fs (py "True")
              = (events_of (main example_fs (py "True")), Ok tt))
    by (apply io_eta; vm_compute; reflexivity).
  split; [exact H|].
  exact (main_build_then_load example_fs _ H).
Defined.

End program_properties.
